(** * NorthstarET.Lms: the specification input model and its service

    A shallow embedding of [src/models/spec_input.py] and
    [src/services/spec_input_service.py].

    - A Python [str] is a list of Unicode code points ([list N]).
    - The regular expressions handed to [re.sub] are kept as data and run
      by a backtracking matcher with the priorities of Python's [re]
      (greedy and lazy stars, greedy option).
    - A [SpecInput] is a mutable object: objects live in a store and the
      service's history holds references into it. *)

From Stdlib Require Import String Ascii DecimalString.
From stdpp Require Import base option list gmap.

Local Open Scope N_scope.

(** ** Python strings *)

Abbreviation pystr := (list N).

(** The code points of an ASCII literal. *)
Definition py (s : string) : pystr :=
  map N_of_ascii (list_ascii_of_string s).

(** [str.isspace] on one code point: the characters [str.strip()] removes. *)
Definition isspace (c : N) : bool :=
  ((9 <=? c) && (c <=? 13)) || ((28 <=? c) && (c <=? 32))
  || (c =? 133) || (c =? 160) || (c =? 5760)
  || ((8192 <=? c) && (c <=? 8202))
  || (c =? 8232) || (c =? 8233) || (c =? 8239) || (c =? 8287) || (c =? 12288).

Fixpoint lstrip (s : pystr) : pystr :=
  match s with
  | c :: s' => if isspace c then lstrip s' else s
  | [] => []
  end.

Definition rstrip (s : pystr) : pystr := rev (lstrip (rev s)).

(** [s.strip()] *)
Definition strip (s : pystr) : pystr := rstrip (lstrip s).

(** [str.lower()] on the ASCII range. *)
Definition ascii_lower (c : N) : N :=
  if (65 <=? c) && (c <=? 90) then c + 32 else c.

(** [str(n)] for a length and [str(b)] for a bool, as f-strings print them. *)
Definition str_of_nat (n : nat) : pystr :=
  py (NilEmpty.string_of_uint (Nat.to_uint n)).

Definition str_of_bool (b : bool) : pystr :=
  if b then py "True" else py "False".

(** [sep.join(parts)] *)
Fixpoint join (sep : pystr) (parts : list pystr) : pystr :=
  match parts with
  | [] => []
  | [p] => p
  | p :: rest => p ++ sep ++ join sep rest
  end.

(** ** The fragment of [re] the model uses *)

Module Re.

(** What one pattern position accepts. *)
Inductive atom :=
| Lit (c : N)        (* the character c *)
| NotChar (c : N)    (* [^c] *)
| Dot.               (* . *)

Inductive quant :=
| One                (* x *)
| Star               (* x* *)
| StarLazy           (* x*? *)
| Opt.               (* x? *)

Definition regex := list (atom * quant).

Record flags := { IGNORECASE : bool; DOTALL : bool }.

(** Under IGNORECASE a character is compared after simple lower-casing,
    and through the engine's table of equivalent letters.  For an ASCII
    pattern character this is: the two ASCII cases, and for [i], [s], [k]
    also U+0130, U+0131, U+017F and U+212A. *)
Definition fold_case (ch : N) : N :=
  if ch =? 304 then 105
  else if ch =? 305 then 105
  else if ch =? 383 then 115
  else if ch =? 8490 then 107
  else ascii_lower ch.

Definition lit_accepts (fl : flags) (c ch : N) : bool :=
  if IGNORECASE fl then fold_case ch =? ascii_lower c else ch =? c.

Definition accepts (fl : flags) (a : atom) (ch : N) : bool :=
  match a with
  | Lit c => lit_accepts fl c ch
  | NotChar c => negb (lit_accepts fl c ch)
  | Dot => DOTALL fl || negb (ch =? 10)
  end.

(** [x*] followed by the rest of the pattern [k]: take as many as
    possible, give back one at a time. *)
Fixpoint star_greedy (acc : N -> bool) (k : pystr -> option nat)
    (s : pystr) : option nat :=
  match s with
  | c :: s' =>
      if acc c then
        match star_greedy acc k s' with
        | Some n => Some (S n)
        | None => k s
        end
      else k s
  | [] => k s
  end.

(** [x*?] followed by the rest of the pattern [k]: take as few as
    possible, extend one at a time. *)
Fixpoint star_lazy (acc : N -> bool) (k : pystr -> option nat)
    (s : pystr) : option nat :=
  match k s with
  | Some n => Some n
  | None =>
      match s with
      | c :: s' => if acc c then S <$> star_lazy acc k s' else None
      | [] => None
      end
  end.

(** The match of [p] anchored at the start of [s]: the number of
    characters of the first match in backtracking order. *)
Fixpoint match_here (fl : flags) (p : regex) (s : pystr) : option nat :=
  match p with
  | [] => Some O
  | (a, q) :: p' =>
      match q with
      | One =>
          match s with
          | c :: s' =>
              if accepts fl a c then S <$> match_here fl p' s' else None
          | [] => None
          end
      | Opt =>
          match s with
          | c :: s' =>
              if accepts fl a c then
                match match_here fl p' s' with
                | Some n => Some (S n)
                | None => match_here fl p' s
                end
              else match_here fl p' s
          | [] => match_here fl p' s
          end
      | Star => star_greedy (accepts fl a) (match_here fl p') s
      | StarLazy => star_lazy (accepts fl a) (match_here fl p') s
      end
  end.

(** [re.sub(p, '', s, flags=fl)]: scan from the left; where [p] matches,
    drop the match and go on behind it; elsewhere keep the character.
    [skip] counts the characters of the current match still to drop.
    With the empty replacement an empty match changes nothing. *)
Fixpoint sub_from (skip : nat) (fl : flags) (p : regex) (s : pystr)
    : pystr :=
  match s with
  | [] => []
  | c :: s' =>
      match skip with
      | S k => sub_from k fl p s'
      | O =>
          match match_here fl p s with
          | Some (S n) => sub_from n fl p s'
          | _ => c :: sub_from O fl p s'
          end
      end
  end.

Definition sub (p : regex) (s : pystr) (fl : flags) : pystr :=
  sub_from O fl p s.

(** A run of literal characters. *)
Definition lits (s : pystr) : regex := map (fun c => (Lit c, One)) s.

End Re.

(** ** models/spec_input.py *)

Definition VALID_FORMATS : list pystr := [py "markdown"; py "text"; py "html"].
Definition MIN_CONTENT_LENGTH : nat := 2.

(** r'<script[^>]*>.*?</script>' and f'<{tag}[^>]*>.*?</{tag}>' *)
Definition paired_re (tag : pystr) : Re.regex :=
  Re.lits (py "<" ++ tag)
  ++ [(Re.NotChar 62, Re.Star); (Re.Lit 62, Re.One); (Re.Dot, Re.StarLazy)]
  ++ Re.lits (py "</" ++ tag ++ py ">").

(** f'<{tag}[^>]*/?>' *)
Definition unpaired_re (tag : pystr) : Re.regex :=
  Re.lits (py "<" ++ tag)
  ++ [(Re.NotChar 62, Re.Star); (Re.Lit 47, Re.Opt); (Re.Lit 62, Re.One)].

Definition DOTALL_IGNORECASE : Re.flags :=
  {| Re.IGNORECASE := true; Re.DOTALL := true |}.
Definition ONLY_IGNORECASE : Re.flags :=
  {| Re.IGNORECASE := true; Re.DOTALL := false |}.

Definition harmful_tags : list pystr :=
  [py "iframe"; py "object"; py "embed"; py "form"; py "input"].

(** One round of the loop over [harmful_tags]. *)
Definition remove_tag (content tag : pystr) : pystr :=
  let content := Re.sub (paired_re tag) content DOTALL_IGNORECASE in
  Re.sub (unpaired_re tag) content ONLY_IGNORECASE.

(** The string [sanitize] computes from [self.content] when nothing is
    cached. *)
Definition sanitize_content (content : pystr) : pystr :=
  let content := Re.sub (paired_re (py "script")) content DOTALL_IGNORECASE in
  let content := fold_left remove_tag harmful_tags content in
  strip content.

(** *** The object *)

Definition datetime := Z.

Record SpecInput := mk_SpecInput {
  content : pystr;
  format : pystr;
  metadata : list (pystr * pystr);
  created_at : datetime;
  _sanitized_content : option pystr
}.

(** [SpecInput(content, format, metadata)].  [lower] is [str.lower];
    [fmt = None] is a format of [None], [metadata = None] likewise; [now]
    is the clock reading. *)
Definition SpecInput_init (lower : pystr -> pystr) (content : pystr)
    (fmt : option pystr) (metadata : option (list (pystr * pystr)))
    (now : datetime) : SpecInput :=
  {| content := content;
     format := match fmt with
               | Some (c :: f) => lower (c :: f)
               | _ => py "text"
               end;
     metadata := default [] metadata;
     created_at := now;
     _sanitized_content := None |}.

(** The parameter default [format="text"]. *)
Definition default_format : option pystr := Some (py "text").

Definition in_formats (f : pystr) (fs : list pystr) : bool :=
  bool_decide (f ∈ fs).

Definition is_valid (self : SpecInput) : bool :=
  if (length (strip (content self)) <? MIN_CONTENT_LENGTH)%nat then false
  else if negb (in_formats (format self) VALID_FORMATS) then false
  else true.

Definition set_sanitized (self : SpecInput) (v : option pystr) : SpecInput :=
  {| content := content self; format := format self;
     metadata := metadata self; created_at := created_at self;
     _sanitized_content := v |}.

(** An assignment [self.content = c] from outside. *)
Definition set_content (self : SpecInput) (c : pystr) : SpecInput :=
  {| content := c; format := format self;
     metadata := metadata self; created_at := created_at self;
     _sanitized_content := _sanitized_content self |}.

(** [self.sanitize()]: the returned string and the object afterwards. *)
Definition sanitize (self : SpecInput) : pystr * SpecInput :=
  match _sanitized_content self with
  | Some cached => (cached, self)
  | None =>
      let r := sanitize_content (content self) in
      (r, set_sanitized self (Some r))
  end.

(** [str(self)] *)
Definition SpecInput_str (self : SpecInput) : pystr :=
  py "SpecInput(format=" ++ format self
  ++ py ", length=" ++ str_of_nat (length (content self))
  ++ py ", valid=" ++ str_of_bool (is_valid self) ++ py ")".

(** ** services/spec_input_service.py *)

Abbreviation loc := nat.

(** The values the model follows where a [SpecInput] is expected: [None],
    a [str], an [int], and a reference to a [SpecInput] object.  (Python has
    more: the method [handle_invalid_spec], which tests no type, would treat
    any object with [content] and [format] as it treats a [SpecInput].) *)
Inductive pyobj :=
| VNone
| VStr (s : pystr)
| VInt (z : Z)
| VRef (l : loc).

Inductive exn :=
| ValueError (msg : pystr)
| AttributeError (msg : pystr).

(** [str(e)] *)
Definition exn_str (e : exn) : pystr :=
  match e with ValueError m => m | AttributeError m => m end.

(** The values stored in a result's [data]. *)
Inductive data_value :=
| DInt (n : nat)
| DStr (s : pystr)
| DIso (t : datetime)          (* t.isoformat() *)
| DList (l : list pystr).

Record SpecInputProcessingResult := mk_result {
  success : bool;
  message : pystr;
  data : gmap pystr data_value;
  timestamp : datetime
}.

Inductive level := INFO | ERROR.

(** The state a call runs in: the objects, the service's history (a list
    of references), what the logger received, and the readings the UTC
    clock will give. *)
Record World := mk_World {
  heap : gmap loc SpecInput;
  _processed_specs : list loc;
  logged : list (level * pystr);
  clock : nat -> datetime
}.

Definition M (A : Type) : Type := World -> (exn + A) * World.

Definition ret {A} (a : A) : M A := fun w => (inr a, w).
Definition raise {A} (e : exn) : M A := fun w => (inl e, w).
Definition bind {A B} (m : M A) (k : A -> M B) : M B :=
  fun w => match m w with
           | (inr a, w') => k a w'
           | (inl e, w') => (inl e, w')
           end.
Definition try_except {A} (body : M A) (handler : exn -> M A) : M A :=
  fun w => match body w with
           | (inl e, w') => handler e w'
           | r => r
           end.

Notation "x <- m ;; k" := (bind m (fun x => k))
  (at level 90, m at level 80, right associativity).
Notation "m ;;; k" := (bind m (fun _ => k))
  (at level 90, right associativity).

(** [datetime.now(timezone.utc)] *)
Definition now : M datetime :=
  fun w => (inr (clock w O),
            mk_World (heap w) (_processed_specs w) (logged w)
                     (fun n => clock w (S n))).

(** A logger, [self.logger]: for each record handed to it, whether the
    call returns ([None]) or raises (a filter or a subclass of
    [logging.Logger] can). *)
Definition Logger := level -> pystr -> option exn.

(** [logging.getLogger(__name__)], the logger of a service or application
    that was given none: its calls return. *)
Definition default_logger : Logger := fun _ _ => None.

(** [logger.info(msg)] and [logger.error(msg)]: the logger receives the
    record; the call then returns or raises, as the logger decides. *)
Definition logger_call (logger : Logger) (lv : level) (msg : pystr) : M unit :=
  fun w =>
    let w' := mk_World (heap w) (_processed_specs w) (logged w ++ [(lv, msg)])
                       (clock w) in
    match logger lv msg with
    | None => (inr tt, w')
    | Some e => (inl e, w')
    end.

(** [self._processed_specs.append(spec_input)] *)
Definition append_processed (l : loc) : M unit :=
  fun w => (inr tt, mk_World (heap w) (_processed_specs w ++ [l]) (logged w)
                             (clock w)).

(** The object behind an argument when it is a [SpecInput] instance
    ([isinstance(v, SpecInput)]); a reference with no object behind it is
    not one. *)
Definition as_SpecInput (v : pyobj) (w : World) : option (loc * SpecInput) :=
  match v with
  | VRef l => (fun o => (l, o)) <$> heap w !! l
  | _ => None
  end.

(** [spec_input.sanitize()] on the object [self] stored at [l]: the
    returned string, and the object as the call leaves it in the store. *)
Definition sanitize_at (l : loc) (self : SpecInput) : M (pystr * SpecInput) :=
  fun w => let r := sanitize self in
           (inr r, mk_World (<[l := r.2]> (heap w)) (_processed_specs w)
                            (logged w) (clock w)).

(** [SpecInputProcessingResult(success, message, data)] *)
Definition new_result (success : bool) (message : pystr)
    (data : option (gmap pystr data_value)) : M SpecInputProcessingResult :=
  t <- now ;;
  ret (mk_result success message (default ∅ data) t).

(** [process_spec] of a service whose logger is [logger]. *)
Definition process_spec_with (logger : Logger) (spec_input : pyobj)
    : M SpecInputProcessingResult :=
  fun w =>
  match as_SpecInput spec_input w with
  | None =>
      new_result false (py "Invalid input: must be SpecInput instance") None w
  | Some (l, self) =>
      if negb (is_valid self) then
        raise (ValueError (py "Invalid specification: " ++ SpecInput_str self)) w
      else
        try_except
          (r <- sanitize_at l self ;;
           let sanitized_content := r.1 in
           let self := r.2 in
           processed_at <- now ;;
           let processed_data : gmap pystr data_value :=
             <[py "original_length" := DInt (length (content self))]>
             (<[py "sanitized_length" := DInt (length sanitized_content)]>
             (<[py "format" := DStr (format self)]>
             (<[py "created_at" := DIso (created_at self)]>
             (<[py "processed_at" := DIso processed_at]> ∅)))) in
           append_processed l ;;;
           logger_call logger INFO
             (py "Successfully processed spec: " ++ SpecInput_str self) ;;;
           new_result true (py "Specification processed successfully")
             (Some processed_data))
          (fun e =>
             let error_msg := py "Error processing specification: " ++ exn_str e in
             logger_call logger ERROR error_msg ;;;
             new_result false error_msg None)
          w
  end.

(** [process_spec] of a service made as [SpecInputService()], which takes
    the default logger. *)
Definition process_spec (spec_input : pyobj) : M SpecInputProcessingResult :=
  process_spec_with default_logger spec_input.

(** [type(v).__name__] *)
Definition type_name (v : pyobj) : pystr :=
  match v with
  | VNone => py "NoneType"
  | VStr _ => py "str"
  | VInt _ => py "int"
  | VRef _ => py "SpecInput"
  end.

Definition content_too_short_msg : pystr :=
  py "Content too short (minimum " ++ str_of_nat MIN_CONTENT_LENGTH
  ++ py " characters)".

(** [order] is the order in which the set [VALID_FORMATS] is iterated by
    [', '.join]; Python does not fix it. *)
Definition invalid_format_msg (order : list pystr) (fmt : pystr) : pystr :=
  py "Invalid format '" ++ fmt ++ py "'. Valid formats: "
  ++ join (py ", ") order.

Definition _get_validation_errors (order : list pystr) (spec_input : SpecInput)
    : list pystr :=
  let errors := [] in
  let errors :=
    if (length (strip (content spec_input)) <? MIN_CONTENT_LENGTH)%nat
    then errors ++ [content_too_short_msg] else errors in
  let errors :=
    if negb (in_formats (format spec_input) VALID_FORMATS)
    then errors ++ [invalid_format_msg order (format spec_input)] else errors in
  errors.

Definition handle_invalid_spec (order : list pystr) (spec_input : pyobj)
    : M SpecInputProcessingResult :=
  fun w =>
  match spec_input with
  | VNone => new_result false (py "Cannot process null specification") None w
  | VRef l =>
      match heap w !! l with
      | Some self =>
          new_result false (py "Invalid specification: " ++ SpecInput_str self)
            (Some {[ py "errors" := DList (_get_validation_errors order self) ]})
            w
      | None =>
          (* a reference with no object behind it: no Python value is
             like this, and no statement below is about it *)
          raise (AttributeError (py "'" ++ type_name spec_input
                                 ++ py "' object has no attribute 'content'")) w
      end
  | VStr _ | VInt _ =>
      (* spec_input.content: a str and an int have no such attribute *)
      raise (AttributeError (py "'" ++ type_name spec_input
                             ++ py "' object has no attribute 'content'")) w
  end.

Definition get_processed_count : M nat :=
  fun w => (inr (length (_processed_specs w)), w).

Definition get_processed_specs : M (list loc) :=
  fun w => (inr (_processed_specs w), w).

(** [clear_processed_specs] of a service whose logger is [logger]. *)
Definition clear_processed_specs_with (logger : Logger) : M unit :=
  (fun w => (inr tt, mk_World (heap w) [] (logged w) (clock w))) ;;;
  logger_call logger INFO (py "Cleared all processed specifications").

(** [clear_processed_specs] of a service with the default logger. *)
Definition clear_processed_specs : M unit :=
  clear_processed_specs_with default_logger.

(** [SpecInputService()]: a service with an empty history. *)
Definition SpecInputService_init (w : World) : World :=
  mk_World (heap w) [] (logged w) (clock w).

(** ** Words of the specification used in the statements *)

(** [needle in hay] *)
Definition occurs_in (needle hay : pystr) : Prop :=
  exists pre post, hay = pre ++ needle ++ post.

Fixpoint starts_with (needle hay : pystr) : bool :=
  match needle, hay with
  | [], _ => true
  | a :: n', b :: h' => (a =? b) && starts_with n' h'
  | _ :: _, [] => false
  end.

Fixpoint contains (needle hay : pystr) : bool :=
  starts_with needle hay ||
  match hay with
  | [] => false
  | _ :: h' => contains needle h'
  end.

(** What a caller does to an object between two looks at it. *)
Inductive caller_op :=
| CallSanitize
| AssignContent (c : pystr).

(** The strings the [sanitize] calls among [ops] return, in order. *)
Fixpoint run_ops (ops : list caller_op) (self : SpecInput) : list pystr :=
  match ops with
  | [] => []
  | CallSanitize :: ops' =>
      let r := sanitize self in r.1 :: run_ops ops' r.2
  | AssignContent c :: ops' => run_ops ops' (set_content self c)
  end.

Definition advance (k : nat) (w : World) : nat -> datetime :=
  fun n => clock w (k + n)%nat.

Definition processed_data (self : SpecInput) (sanitized_content : pystr)
    (processed_at : datetime) : gmap pystr data_value :=
  <[py "original_length" := DInt (length (content self))]>
  (<[py "sanitized_length" := DInt (length sanitized_content)]>
  (<[py "format" := DStr (format self)]>
  (<[py "created_at" := DIso (created_at self)]>
  (<[py "processed_at" := DIso processed_at]> ∅)))).

(** [f] spells the lower-case word [name] in some mix of upper and lower
    case. *)
Definition spelling_of (name f : pystr) : Prop :=
  Forall2 (fun d c => c = d \/ (65 <= c <= 90 /\ c + 32 = d)) name f.

(** [s] is [word] up to the case of its letters, as IGNORECASE compares. *)
Definition same_ignoring_case (word s : pystr) : Prop :=
  Forall2 (fun c ch => Re.fold_case ch = ascii_lower c) word s.

(** [b] is a block [<tag ...> ... </tag>]: the opening name, attributes
    without [>], [>], any content (line breaks included), the closing tag. *)
Definition is_block (tag b : pystr) : Prop :=
  exists opening attrs body closing : pystr,
    b = opening ++ attrs ++ [62] ++ body ++ closing
    /\ same_ignoring_case (py "<" ++ tag) opening
    /\ (62 ∉ attrs)
    /\ same_ignoring_case (py "</" ++ tag ++ py ">") closing.

(** ** main_app.py *)

(** The values of the dictionaries the application returns. *)
Inductive app_value :=
| AStr (s : pystr)
| AInt (n : nat)
| AList (l : list pystr)
| ADict (d : gmap pystr data_value).

(** [SpecInput(content=content, format=format)] evaluated by a caller: a
    new object, at a place no object occupies, stamped with the clock. *)
Definition new_SpecInput (lower : pystr -> pystr) (content : pystr)
    (fmt : option pystr) (metadata : option (list (pystr * pystr)))
    : M (loc * SpecInput) :=
  t <- now ;;
  fun w => let l := fresh (dom (heap w)) in
           let self := SpecInput_init lower content fmt metadata t in
           (inr (l, self),
            mk_World (<[l := self]> (heap w)) (_processed_specs w) (logged w)
                     (clock w)).

(** [SpecInputApp.__init__] with the default log level; the application's
    logger is [logging.getLogger(__name__)], which it hands to its service. *)
Definition SpecInputApp_init : M unit :=
  logger_call default_logger INFO (py "Initializing SpecInput application") ;;;
  fun w => (inr tt, SpecInputService_init w).

(** [SpecInputApp._get_validation_errors] *)
Definition app_get_validation_errors (order : list pystr)
    (spec_input : SpecInput) : list pystr :=
  let errors := [] in
  let errors :=
    if (length (strip (content spec_input)) <? MIN_CONTENT_LENGTH)%nat
    then errors ++ [py "Content too short (minimum "
                    ++ str_of_nat MIN_CONTENT_LENGTH ++ py " characters)"]
    else errors in
  let errors :=
    if negb (in_formats (format spec_input) VALID_FORMATS)
    then errors ++ [py "Invalid format '" ++ format spec_input
                    ++ py "'. Valid formats: " ++ join (py ", ") order]
    else errors in
  errors.

(** [SpecInputApp.process_specification(content, format)], with [text] for
    the parameter [content] and [fmt] for [format]. *)
Definition process_specification (lower : pystr -> pystr)
    (order : list pystr) (text : pystr) (fmt : option pystr)
    : M (gmap pystr app_value) :=
  try_except
    (r <- new_SpecInput lower text fmt None ;;
     let spec_input := r.2 in
     if negb (is_valid spec_input) then
       ret (<[py "status" := AStr (py "error")]>
            (<[py "message" := AStr (py "Invalid specification input")]>
            (<[py "errors" := AList (app_get_validation_errors order spec_input)]>
             ∅)))
     else
       result <- process_spec (VRef r.1) ;;
       ret (<[py "status" :=
                AStr (if success result then py "success" else py "error")]>
            (<[py "message" := AStr (message result)]>
            (<[py "data" := ADict (data result)]>
            (<[py "spec_info" :=
                 ADict (<[py "format" := DStr (format spec_input)]>
                        (<[py "length" := DInt (length (content spec_input))]>
                        (<[py "created_at" := DIso (created_at spec_input)]> ∅)))]>
             ∅)))))
    (fun e =>
       logger_call default_logger ERROR
         (py "Error processing specification: " ++ exn_str e) ;;;
       ret (<[py "status" := AStr (py "error")]>
            (<[py "message" := AStr (py "Processing failed: " ++ exn_str e)]> ∅))).

(** [SpecInputApp.get_application_status()]; [order] is the order in which
    [list(SpecInput.VALID_FORMATS)] lists the set. *)
Definition get_application_status (order : list pystr)
    : M (gmap pystr app_value) :=
  n <- get_processed_count ;;
  ret (<[py "status" := AStr (py "running")]>
       (<[py "processed_specs" := AInt n]>
       (<[py "supported_formats" := AList order]>
       (<[py "min_content_length" := AInt MIN_CONTENT_LENGTH]> ∅)))).

(** ** Callers, for the statements *)

(** The reference [process_spec] adds to the history for the argument
    [v]: that of [v] when it is a valid [SpecInput] instance. *)
Definition admitted (v : pyobj) (w : World) : option loc :=
  match as_SpecInput v w with
  | Some (l, self) => if is_valid self then Some l else None
  | None => None
  end.

(** A caller hands the arguments [vs] one after the other to [process_spec]
    of a service whose logger is [logger], catching what is raised: the
    outcomes, and the state at the end. *)
Fixpoint process_each (logger : Logger) (vs : list pyobj) (w : World)
    : list (exn + SpecInputProcessingResult) * World :=
  match vs with
  | [] => ([], w)
  | v :: vs' =>
      let r := process_spec_with logger v w in
      let rest := process_each logger vs' r.2 in
      (r.1 :: rest.1, rest.2)
  end.

(** A caller submits the pairs of content and format to
    [process_specification] one after the other. *)
Fixpoint submit_each (lower : pystr -> pystr) (order : list pystr)
    (inputs : list (pystr * option pystr)) (w : World) : World :=
  match inputs with
  | [] => w
  | (text, fmt) :: rest =>
      submit_each lower order rest
        (process_specification lower order text fmt w).2
  end.

(** Whether an instance made from [content] and [fmt] is valid (the clock
    reading and the metadata play no part). *)
Definition valid_input (lower : pystr -> pystr) (input : pystr * option pystr)
    : bool :=
  is_valid (SpecInput_init lower input.1 input.2 None 0%Z).

(** An assignment [spec.content = c] to the object at [l]. *)
Definition assign_content (l : loc) (c : pystr) (w : World) : World :=
  mk_World (alter (fun self => set_content self c) l (heap w))
           (_processed_specs w) (logged w) (clock w).

(** Every input in the history is an object whose sanitized content has
    been computed. *)
Definition history_sanitized (w : World) : Prop :=
  Forall (fun l => exists self, heap w !! l = Some self
                                /\ is_Some (_sanitized_content self))
         (_processed_specs w).


(** A logger with a filter that raises on every INFO record and lets
    ERROR records through. *)
Definition raising_on_info : Logger :=
  fun lv _ =>
    match lv with
    | INFO => Some (ValueError (py "log filter failed"))
    | ERROR => None
    end.

(** * Properties *)

(** ** Strings *)

Lemma lstrip_length s : (length (lstrip s) <= length s)%nat.
Proof.
  induction s as [|c s IH]; simpl; [lia|].
  destruct (isspace c); simpl; lia.
Qed.

Lemma strip_length s : (length (strip s) <= length s)%nat.
Proof.
  unfold strip, rstrip. rewrite length_rev.
  etrans; [apply lstrip_length|]. rewrite length_rev. apply lstrip_length.
Qed.

Lemma lstrip_cons_nonspace c s : isspace c = false -> lstrip (c :: s) = c :: s.
Proof. intros H. simpl. by rewrite H. Qed.

Lemma lstrip_head s :
  lstrip s = [] \/ exists c t, lstrip s = c :: t /\ isspace c = false.
Proof.
  induction s as [|c s IH]; simpl; [by left|].
  destruct (isspace c) eqn:E; [done|]. right. by exists c, s.
Qed.

Lemma lstrip_idem s : lstrip (lstrip s) = lstrip s.
Proof.
  destruct (lstrip_head s) as [->|(c & t & -> & H)]; [done|].
  by apply lstrip_cons_nonspace.
Qed.

Lemma lstrip_snoc_nonspace u c :
  isspace c = false -> lstrip (u ++ [c]) = lstrip u ++ [c].
Proof.
  intros H. induction u as [|d u IH]; simpl.
  - by rewrite H.
  - destruct (isspace d); [done|]. done.
Qed.

Lemma rstrip_idem s : rstrip (rstrip s) = rstrip s.
Proof. unfold rstrip. by rewrite rev_involutive, lstrip_idem. Qed.

Lemma lstrip_rstrip_fixed z : lstrip z = z -> lstrip (rstrip z) = rstrip z.
Proof.
  intros Hz. destruct z as [|c t]; [done|].
  assert (isspace c = false) as Hc.
  { simpl in Hz. destruct (isspace c) eqn:E; [|done].
    pose proof (lstrip_length t) as Hl. rewrite Hz in Hl. simpl in Hl. lia. }
  unfold rstrip. simpl rev. rewrite lstrip_snoc_nonspace by done.
  rewrite rev_app_distr. simpl. by rewrite Hc.
Qed.

Lemma strip_idem s : strip (strip s) = strip s.
Proof.
  unfold strip. rewrite lstrip_rstrip_fixed by apply lstrip_idem.
  apply rstrip_idem.
Qed.

Lemma strip_is_trimmed s :
  lstrip (strip s) = strip s /\ rstrip (strip s) = strip s.
Proof.
  split.
  - unfold strip. apply lstrip_rstrip_fixed, lstrip_idem.
  - unfold strip. apply rstrip_idem.
Qed.

Lemma starts_with_spec needle hay :
  starts_with needle hay = true <-> exists post, hay = needle ++ post.
Proof.
  revert hay. induction needle as [|a n IH]; intros hay; simpl.
  - split; [by exists hay|done].
  - destruct hay as [|b h].
    + split; [done|]. by intros (post & ?).
    + rewrite andb_true_iff, N.eqb_eq, IH. split.
      * intros (-> & post & ->). by exists post.
      * intros (post & [= -> ->]). split; [done|]. by exists post.
Qed.

Lemma contains_spec needle hay :
  contains needle hay = true <-> occurs_in needle hay.
Proof.
  induction hay as [|b h IH].
  - simpl. rewrite orb_false_r, starts_with_spec. split.
    + intros (post & ->). by exists [], post.
    + intros (pre & post & H). destruct pre; [by exists post|done].
  - cbn [contains]. rewrite orb_true_iff, starts_with_spec, IH. split.
    + intros [(post & ->)|(pre & post & ->)].
      * by exists [], post.
      * by exists (b :: pre), post.
    + intros (pre & post & H). destruct pre as [|c pre].
      * left. by exists post.
      * right. injection H as -> ->. by exists pre, post.
Qed.

Lemma occurs_in_app_r pre s t : occurs_in s t -> occurs_in s (pre ++ t).
Proof.
  intros (a & b & ->). exists (pre ++ a), b. by rewrite <- app_assoc.
Qed.

Lemma occurs_in_app_l post s t : occurs_in s t -> occurs_in s (t ++ post).
Proof.
  intros (a & b & ->). exists a, (b ++ post). by rewrite <- !app_assoc.
Qed.

Lemma occurs_in_refl s : occurs_in s s.
Proof. exists [], []. by rewrite app_nil_r. Qed.

Lemma occurs_in_join sep (parts : list pystr) f :
  f ∈ parts -> occurs_in f (join sep parts).
Proof.
  induction parts as [|p rest IH]; [by rewrite elem_of_nil|].
  rewrite elem_of_cons. intros [->|H].
  - destruct rest; simpl; [apply occurs_in_refl|].
    apply occurs_in_app_l, occurs_in_refl.
  - destruct rest as [|q rest]; [by apply elem_of_nil in H|].
    change (join sep (p :: q :: rest)) with (p ++ sep ++ join sep (q :: rest)).
    by apply occurs_in_app_r, occurs_in_app_r, IH.
Qed.

(** ** [re.sub] with the empty replacement *)

Lemma sub_from_length k fl p s :
  (length (Re.sub_from k fl p s) <= length s)%nat.
Proof.
  revert k. induction s as [|c s IH]; intros k; simpl; [lia|].
  destruct k as [|k].
  - destruct (Re.match_here fl p (c :: s)) as [[|n]|]; simpl;
      [pose proof (IH O) | pose proof (IH n) | pose proof (IH O)]; lia.
  - specialize (IH k). lia.
Qed.

Lemma sub_length p s fl : (length (Re.sub p s fl) <= length s)%nat.
Proof. apply sub_from_length. Qed.

Lemma sub_from_skip k fl p s :
  Re.sub_from k fl p s = Re.sub_from O fl p (drop k s).
Proof.
  revert k. induction s as [|c s IH]; intros [|k]; try done.
  simpl. apply IH.
Qed.

Lemma sub_match fl p s n :
  Re.match_here fl p s = Some (S n) ->
  Re.sub p s fl = Re.sub p (drop (S n) s) fl.
Proof.
  unfold Re.sub. destruct s as [|c s]; [done|]. intros H.
  cbn [Re.sub_from]. rewrite H.
  change (drop (S n) (c :: s)) with (drop n s). apply sub_from_skip.
Qed.

Lemma sub_no_match_here fl p c s :
  Re.match_here fl p (c :: s) = None ->
  Re.sub p (c :: s) fl = c :: Re.sub p s fl.
Proof. unfold Re.sub. intros H. cbn [Re.sub_from]. by rewrite H. Qed.

(** ** What the paired-tag pattern matches *)

Lemma fold_case_gt ch : Re.fold_case ch = 62 <-> ch = 62.
Proof.
  unfold Re.fold_case, ascii_lower.
  repeat (match goal with
          | |- context [N.eqb ?a ?b] => destruct (N.eqb_spec a b)
          | |- context [N.leb ?a ?b] => destruct (N.leb_spec a b)
          end; simpl); lia.
Qed.

Lemma fold_case_lt ch : Re.fold_case ch = 60 <-> ch = 60.
Proof.
  unfold Re.fold_case, ascii_lower.
  repeat (match goal with
          | |- context [N.eqb ?a ?b] => destruct (N.eqb_spec a b)
          | |- context [N.leb ?a ?b] => destruct (N.leb_spec a b)
          end; simpl); lia.
Qed.

Lemma match_here_star fl a p s :
  Re.match_here fl ((a, Re.Star) :: p) s
  = Re.star_greedy (Re.accepts fl a) (Re.match_here fl p) s.
Proof. reflexivity. Qed.

Lemma match_here_star_lazy fl a p s :
  Re.match_here fl ((a, Re.StarLazy) :: p) s
  = Re.star_lazy (Re.accepts fl a) (Re.match_here fl p) s.
Proof. reflexivity. Qed.

Section Matching.

Variable fl : Re.flags.
Hypothesis ignorecase : Re.IGNORECASE fl = true.

Lemma accepts_not_gt ch :
  Re.accepts fl (Re.NotChar 62) ch = true <-> ch <> 62.
Proof.
  simpl. unfold Re.lit_accepts. rewrite ignorecase.
  change (ascii_lower 62) with 62.
  destruct (N.eqb_spec (Re.fold_case ch) 62) as [E|E]; simpl;
    rewrite fold_case_gt in E; split; done.
Qed.

Lemma accepts_gt ch :
  Re.accepts fl (Re.Lit 62) ch = true <-> ch = 62.
Proof.
  simpl. unfold Re.lit_accepts. rewrite ignorecase.
  change (ascii_lower 62) with 62.
  rewrite N.eqb_eq. apply fold_case_gt.
Qed.

Lemma accepts_lit c ch :
  Re.accepts fl (Re.Lit c) ch = true <-> Re.fold_case ch = ascii_lower c.
Proof. simpl. unfold Re.lit_accepts. rewrite ignorecase. apply N.eqb_eq. Qed.

(** A run of literals in front of a pattern. *)
Lemma match_lits_inv w p s n :
  Re.match_here fl (Re.lits w ++ p) s = Some n ->
  exists o s' m, s = o ++ s' /\ same_ignoring_case w o
    /\ Re.match_here fl p s' = Some m /\ n = (length o + m)%nat.
Proof.
  revert s n. induction w as [|c w IH]; intros s n H.
  - exists [], s, n. split_and!; try done. constructor.
  - simpl in H. destruct s as [|ch s]; [done|].
    destruct (Re.lit_accepts fl c ch) eqn:E; [|done].
    destruct (Re.match_here fl (Re.lits w ++ p) s) as [n'|] eqn:H'; [|done].
    injection H as <-.
    destruct (IH _ _ H') as (o & s' & m & -> & Ho & Hm & ->).
    exists (ch :: o), s', m. split_and!; try done.
    constructor; [|done]. by apply accepts_lit.
Qed.

Lemma match_lits_intro w p o s' m :
  same_ignoring_case w o -> Re.match_here fl p s' = Some m ->
  Re.match_here fl (Re.lits w ++ p) (o ++ s') = Some (length o + m)%nat.
Proof.
  intros Ho Hm. induction Ho as [|c ch w o Hc Ho IH]; [done|].
  simpl. assert (Re.lit_accepts fl c ch = true) as -> by by apply accepts_lit.
  by rewrite IH.
Qed.

(** [[^>]*>] in front of a pattern: the attributes end at the first [>]. *)
Lemma match_attrs_inv p s n :
  Re.star_greedy (Re.accepts fl (Re.NotChar 62))
    (Re.match_here fl ((Re.Lit 62, Re.One) :: p)) s = Some n ->
  exists attrs s' m, s = attrs ++ 62 :: s' /\ (62 ∉ attrs)
    /\ Re.match_here fl p s' = Some m /\ n = (length attrs + 1 + m)%nat.
Proof.
  revert n. induction s as [|ch s IH]; intros n H; [done|].
  cbn [Re.star_greedy] in H.
  destruct (Re.accepts fl (Re.NotChar 62) ch) eqn:E.
  - apply accepts_not_gt in E.
    destruct (Re.star_greedy _ _ s) as [n'|] eqn:H'.
    + injection H as <-.
      destruct (IH _ eq_refl) as (attrs & s' & m & -> & Ha & Hm & ->).
      exists (ch :: attrs), s', m. split_and!; try done.
      apply not_elem_of_cons. split; [done|done].
    + cbn [Re.match_here] in H.
      destruct (Re.accepts fl (Re.Lit 62) ch) eqn:E'; [|done].
      apply accepts_gt in E'. done.
  - cbn [Re.match_here] in H.
    destruct (Re.accepts fl (Re.Lit 62) ch) eqn:E'; [|done].
    apply accepts_gt in E' as ->.
    destruct (Re.match_here fl p s) as [m|] eqn:Hm; [|done].
    injection H as <-. exists [], s, m. split_and!; try done.
    apply not_elem_of_nil.
Qed.

Lemma match_attrs_intro p attrs s' m :
  62 ∉ attrs -> Re.match_here fl p s' = Some m ->
  Re.star_greedy (Re.accepts fl (Re.NotChar 62))
    (Re.match_here fl ((Re.Lit 62, Re.One) :: p)) (attrs ++ 62 :: s')
  = Some (length attrs + 1 + m)%nat.
Proof.
  intros Ha Hm. induction attrs as [|ch attrs IH].
  - cbn [app Re.star_greedy].
    destruct (Re.accepts fl (Re.NotChar 62) 62) eqn:E.
    { apply accepts_not_gt in E. done. }
    cbn [Re.match_here].
    destruct (Re.accepts fl (Re.Lit 62) 62) eqn:E'.
    + by rewrite Hm.
    + assert (Re.accepts fl (Re.Lit 62) 62 = true) by by apply accepts_gt.
      congruence.
  - apply not_elem_of_cons in Ha as [Hc Ha].
    cbn [app Re.star_greedy].
    destruct (Re.accepts fl (Re.NotChar 62) ch) eqn:E.
    + by rewrite (IH Ha).
    + assert (Re.accepts fl (Re.NotChar 62) ch = true)
        by (apply accepts_not_gt; congruence).
      congruence.
Qed.

(** [[^>]*/?>] at the end of an opening tag: everything up to the first
    [>] belongs to the tag. *)
Lemma match_unpaired_tail more :
  62 ∉ more ->
  Re.star_greedy (Re.accepts fl (Re.NotChar 62))
    (Re.match_here fl [(Re.Lit 47, Re.Opt); (Re.Lit 62, Re.One)]) (more ++ [62])
  = Some (length more + 1)%nat.
Proof.
  assert (Re.accepts fl (Re.Lit 62) 62 = true) as Hgt by by apply accepts_gt.
  assert (Re.accepts fl (Re.NotChar 62) 62 = false) as Hngt.
  { destruct (Re.accepts fl (Re.NotChar 62) 62) eqn:E; [|done].
    by apply accepts_not_gt in E. }
  assert (Re.accepts fl (Re.Lit 47) 62 = false) as Hslash.
  { destruct (Re.accepts fl (Re.Lit 47) 62) eqn:E; [|done].
    apply accepts_lit in E. vm_compute in E. discriminate. }
  intros Ha. induction more as [|ch more IH].
  - cbn [app Re.star_greedy]. rewrite Hngt.
    cbn [Re.match_here]. by rewrite Hslash, Hgt.
  - apply not_elem_of_cons in Ha as [Hc Ha].
    cbn [app Re.star_greedy].
    assert (Re.accepts fl (Re.NotChar 62) ch = true) as ->
      by (apply accepts_not_gt; congruence).
    by rewrite (IH Ha).
Qed.

Hypothesis dotall : Re.DOTALL fl = true.

(** [.*?] in front of a closing tag: the content ends at a closing tag,
    and no later than at any given one. *)
Lemma match_body_inv w s n :
  Re.star_lazy (Re.accepts fl Re.Dot) (Re.match_here fl (Re.lits w)) s = Some n ->
  exists body closing rest, s = body ++ closing ++ rest
    /\ same_ignoring_case w closing /\ n = (length body + length closing)%nat.
Proof.
  revert n. induction s as [|ch s IH]; intros n H; cbn [Re.star_lazy] in H.
  - destruct (Re.match_here fl (Re.lits w) []) as [m|] eqn:Hm; [|done].
    injection H as <-.
    rewrite <- (app_nil_r (Re.lits w)) in Hm.
    destruct (match_lits_inv _ _ _ _ Hm) as (o & s' & k & Hs & Ho & Hk & ->).
    injection Hk as <-. exists [], o, s'. split_and!; try done; simpl; lia.
  - destruct (Re.match_here fl (Re.lits w) (ch :: s)) as [m|] eqn:Hm.
    + injection H as <-.
      rewrite <- (app_nil_r (Re.lits w)) in Hm.
      destruct (match_lits_inv _ _ _ _ Hm) as (o & s' & k & Hs & Ho & Hk & ->).
      injection Hk as <-. exists [], o, s'. split_and!; try done; simpl; lia.
    + cbn [Re.accepts] in H. rewrite dotall in H. simpl in H.
      destruct (Re.star_lazy _ _ s) as [n'|] eqn:H'; [|done].
      injection H as <-.
      destruct (IH _ eq_refl) as (body & closing & rest & -> & Hc & ->).
      exists (ch :: body), closing, rest. split_and!; done.
Qed.

Lemma match_body_intro w body closing rest :
  same_ignoring_case w closing ->
  exists n, Re.star_lazy (Re.accepts fl Re.Dot) (Re.match_here fl (Re.lits w))
              (body ++ closing ++ rest) = Some n
            /\ (n <= length body + length closing)%nat.
Proof.
  intros Hc.
  assert (Re.match_here fl (Re.lits w) (closing ++ rest) = Some (length closing))
    as Hk.
  { rewrite <- (app_nil_r (Re.lits w)).
    rewrite (match_lits_intro w [] closing rest O Hc eq_refl). f_equal. lia. }
  induction body as [|ch body IH].
  - exists (length closing). simpl.
    destruct (closing ++ rest) eqn:E; simpl; rewrite Hk; split; done || lia.
  - destruct IH as (n & Hn & Hle). cbn [app Re.star_lazy].
    destruct (Re.match_here fl (Re.lits w) (ch :: body ++ closing ++ rest))
      as [m|] eqn:Hm.
    + rewrite <- (app_nil_r (Re.lits w)) in Hm.
      destruct (match_lits_inv _ _ _ _ Hm) as (o & s' & k & Hs & Ho & Hk' & ->).
      injection Hk' as <-. exists (length o + 0)%nat. split; [done|].
      rewrite <- (Forall2_length _ _ _ Ho), (Forall2_length _ _ _ Hc).
      simpl. lia.
    + cbn [Re.accepts]. rewrite dotall. simpl. rewrite Hn.
      exists (S n). split; [done|]. simpl. lia.
Qed.

End Matching.

Lemma paired_re_unfold tag s :
  Re.match_here DOTALL_IGNORECASE (paired_re tag) s =
  Re.match_here DOTALL_IGNORECASE
    (Re.lits (py "<" ++ tag)
     ++ (Re.NotChar 62, Re.Star) :: (Re.Lit 62, Re.One) :: (Re.Dot, Re.StarLazy)
        :: Re.lits (py "</" ++ tag ++ py ">")) s.
Proof. reflexivity. Qed.

(** What the pattern matches at the start of [s] is a block. *)
Lemma block_match_sound tag s n :
  Re.match_here DOTALL_IGNORECASE (paired_re tag) s = Some n ->
  (0 < n <= length s)%nat /\ is_block tag (take n s).
Proof.
  rewrite paired_re_unfold. intros H.
  destruct (match_lits_inv DOTALL_IGNORECASE eq_refl _ _ _ _ H) as (o & s1 & m1 & -> & Ho & H1 & ->).
  rewrite match_here_star in H1.
  destruct (match_attrs_inv DOTALL_IGNORECASE eq_refl _ _ _ H1) as (attrs & s2 & m2 & -> & Ha & H2 & ->).
  rewrite match_here_star_lazy in H2.
  destruct (match_body_inv DOTALL_IGNORECASE eq_refl eq_refl _ _ _ H2) as (body & closing & rest & -> & Hc & ->).
  assert (o ++ attrs ++ 62 :: body ++ closing ++ rest
          = (o ++ attrs ++ [62] ++ body ++ closing) ++ rest) as ->.
  { by rewrite <- !app_assoc. }
  assert ((length o + (length attrs + 1 + (length body + length closing)))%nat
          = length (o ++ attrs ++ [62] ++ body ++ closing)) as ->.
  { rewrite !length_app. simpl. lia. }
  rewrite take_app_length. split.
  - rewrite !length_app. simpl. lia.
  - by exists o, attrs, body, closing.
Qed.

(** Where a block starts, the pattern matches, and no further than the
    block reaches. *)
Lemma block_match_complete tag b rest :
  is_block tag b ->
  exists n, Re.match_here DOTALL_IGNORECASE (paired_re tag) (b ++ rest) = Some n
            /\ (n <= length b)%nat.
Proof.
  intros (o & attrs & body & closing & -> & Ho & Ha & Hc).
  destruct (match_body_intro DOTALL_IGNORECASE eq_refl eq_refl
              (py "</" ++ tag ++ py ">") body closing rest Hc)
    as (m & Hm & Hle).
  exists (length o + (length attrs + 1 + m))%nat. split.
  - rewrite paired_re_unfold.
    assert ((o ++ attrs ++ [62] ++ body ++ closing) ++ rest
            = o ++ attrs ++ 62 :: body ++ closing ++ rest) as ->.
    { by rewrite <- !app_assoc. }
    apply match_lits_intro; [done|done|].
    rewrite match_here_star. apply match_attrs_intro; [done|done|].
    rewrite match_here_star_lazy. done.
  - rewrite !length_app. simpl. lia.
Qed.

(** The unpaired pattern takes a whole opening tag whose name starts with
    [tag], whatever follows the name up to the [>]. *)
Lemma unpaired_matches_tag tag opening more :
  same_ignoring_case (py "<" ++ tag) opening -> 62 ∉ more ->
  Re.match_here ONLY_IGNORECASE (unpaired_re tag) (opening ++ more ++ [62])
  = Some (length opening + (length more + 1))%nat.
Proof.
  intros Ho Hm. unfold unpaired_re.
  apply match_lits_intro; [done|done|].
  rewrite match_here_star. by apply match_unpaired_tail.
Qed.

Lemma sub_whole fl p s :
  Re.match_here fl p s = Some (length s) -> Re.sub p s fl = [].
Proof.
  destruct s as [|c s]; [done|]. intros H.
  rewrite (sub_match fl p (c :: s) (length s) H). by rewrite drop_ge by (simpl; lia).
Qed.

Lemma paired_no_match_off_lt tag c s :
  c <> 60 -> Re.match_here DOTALL_IGNORECASE (paired_re tag) (c :: s) = None.
Proof.
  intros Hc.
  change (paired_re tag) with
    ((Re.Lit 60, Re.One)
     :: Re.lits tag
        ++ [(Re.NotChar 62, Re.Star); (Re.Lit 62, Re.One); (Re.Dot, Re.StarLazy)]
        ++ Re.lits (py "</" ++ tag ++ py ">")).
  cbn [Re.match_here].
  destruct (Re.accepts DOTALL_IGNORECASE (Re.Lit 60) c) eqn:E; [|done].
  apply accepts_lit in E; [|done]. change (ascii_lower 60) with 60 in E.
  apply (proj1 (fold_case_lt c)) in E. contradiction.
Qed.

Lemma sub_keeps_prefix tag pre s :
  60 ∉ pre ->
  Re.sub (paired_re tag) (pre ++ s) DOTALL_IGNORECASE
  = pre ++ Re.sub (paired_re tag) s DOTALL_IGNORECASE.
Proof.
  induction pre as [|c pre IH]; [done|].
  intros [Hc Hpre]%not_elem_of_cons. simpl app.
  rewrite sub_no_match_here by (apply paired_no_match_off_lt; congruence).
  by rewrite IH.
Qed.

Lemma shortest_block_matched tag b rest :
  is_block tag b ->
  (forall b2 rest2, b ++ rest = b2 ++ rest2 -> is_block tag b2 ->
                    (length b <= length b2)%nat) ->
  exists n, Re.match_here DOTALL_IGNORECASE (paired_re tag) (b ++ rest) = Some (S n)
            /\ drop (S n) (b ++ rest) = rest.
Proof.
  intros Hb Hmin.
  destruct (block_match_complete _ _ rest Hb) as (n & Hn & Hle).
  destruct (block_match_sound _ _ _ Hn) as [[Hpos Hlen] Hblock].
  assert (length b <= n)%nat as Hge.
  { specialize (Hmin (take n (b ++ rest)) (drop n (b ++ rest))).
    rewrite take_drop, length_take in Hmin. specialize (Hmin eq_refl Hblock). lia. }
  assert (n = length b) as -> by lia.
  destruct (length b) as [|k] eqn:E; [lia|].
  exists k. split; [done|]. rewrite <- E. apply drop_app_length.
Qed.

(** ** [sanitize] and its cache *)

Lemma remove_tag_length s tag : (length (remove_tag s tag) <= length s)%nat.
Proof.
  unfold remove_tag. etrans; [apply sub_length|]. apply sub_length.
Qed.

Lemma fold_remove_tag_length tags s :
  (length (fold_left remove_tag tags s) <= length s)%nat.
Proof.
  revert s. induction tags as [|t tags IH]; intros s; simpl; [lia|].
  etrans; [apply IH|]. apply remove_tag_length.
Qed.

Lemma sanitize_content_length c :
  (length (sanitize_content c) <= length c)%nat.
Proof.
  unfold sanitize_content. etrans; [apply strip_length|].
  etrans; [apply fold_remove_tag_length|]. apply sub_length.
Qed.

Lemma sanitize_fresh self :
  _sanitized_content self = None ->
  sanitize self = (sanitize_content (content self),
                   set_sanitized self (Some (sanitize_content (content self)))).
Proof. intros H. unfold sanitize. by rewrite H. Qed.

Lemma sanitize_cached self r :
  _sanitized_content self = Some r -> sanitize self = (r, self).
Proof. intros H. unfold sanitize. by rewrite H. Qed.

Lemma sanitize_fills_cache self :
  _sanitized_content (sanitize self).2 = Some (sanitize self).1.
Proof.
  unfold sanitize. destruct (_sanitized_content self) eqn:E; simpl; done.
Qed.

Lemma sanitize_keeps_content self : content (sanitize self).2 = content self.
Proof. unfold sanitize. by destruct (_sanitized_content self). Qed.

Lemma run_ops_cached ops : forall self r,
  _sanitized_content self = Some r -> Forall (fun r' => r' = r) (run_ops ops self).
Proof.
  induction ops as [|[|c] ops IH]; intros self r H; simpl.
  - constructor.
  - rewrite (sanitize_cached _ _ H). simpl. constructor; [done|]. by apply IH.
  - apply IH. done.
Qed.

(** ** Validity *)

Lemma spelling_is_ascii name f :
  Forall (fun d => 97 <= d <= 122) name -> spelling_of name f ->
  Forall (fun c => c < 128) f /\ map ascii_lower f = name.
Proof.
  intros Hn Hs. induction Hs as [|d c name f Hc Hs IH]; [done|].
  apply Forall_cons in Hn as [Hd Hn]. destruct (IH Hn) as [IH1 IH2].
  split.
  - constructor; [|done]. destruct Hc as [->|[? <-]]; lia.
  - simpl. rewrite IH2. f_equal. unfold ascii_lower.
    destruct Hc as [->|[? <-]].
    + destruct (N.leb_spec 65 d), (N.leb_spec d 90); simpl; lia.
    + destruct (N.leb_spec 65 c), (N.leb_spec c 90); simpl; lia.
Qed.

Lemma is_valid_spec self :
  is_valid self = true <->
  (2 <= length (strip (content self)))%nat /\ format self ∈ VALID_FORMATS.
Proof.
  unfold is_valid, in_formats, MIN_CONTENT_LENGTH.
  destruct (Nat.ltb_spec (length (strip (content self))) 2).
  - split; [done|]. intros [? _]. lia.
  - destruct (bool_decide_reflect (format self ∈ VALID_FORMATS)); simpl.
    + split; [done|done].
    + split; [done|]. intros [_ ?]. done.
Qed.

Lemma valid_formats_names f :
  f ∈ VALID_FORMATS <-> f ∈ [py "text"; py "markdown"; py "html"].
Proof. unfold VALID_FORMATS. rewrite !elem_of_cons, !elem_of_nil. tauto. Qed.

(** The list [_get_validation_errors] builds, written by cases. *)
Lemma get_validation_errors_cases order self :
  _get_validation_errors order self =
    (if decide (length (strip (content self)) < 2)%nat
     then [content_too_short_msg] else [])
    ++ (if decide (format self ∈ VALID_FORMATS)
        then [] else [invalid_format_msg order (format self)]).
Proof.
  unfold _get_validation_errors, in_formats, MIN_CONTENT_LENGTH.
  destruct (Nat.ltb_spec (length (strip (content self))) 2);
    destruct (decide (length (strip (content self)) < 2)%nat); try lia;
    destruct (bool_decide_reflect (format self ∈ VALID_FORMATS));
    destruct (decide (format self ∈ VALID_FORMATS)); done.
Qed.

(** ** The three ways through [process_spec] *)

Lemma process_spec_not_instance v w :
  as_SpecInput v w = None ->
  process_spec v w =
    (inr (mk_result false (py "Invalid input: must be SpecInput instance") ∅
                    (clock w O)),
     mk_World (heap w) (_processed_specs w) (logged w) (advance 1 w)).
Proof. intros H. unfold process_spec, process_spec_with. rewrite H. reflexivity. Qed.

Lemma process_spec_invalid v w l self :
  as_SpecInput v w = Some (l, self) ->
  is_valid self = false ->
  process_spec v w =
    (inl (ValueError (py "Invalid specification: " ++ SpecInput_str self)), w).
Proof. intros H Hv. unfold process_spec, process_spec_with. rewrite H, Hv. reflexivity. Qed.

Lemma process_spec_valid v w l self :
  as_SpecInput v w = Some (l, self) ->
  is_valid self = true ->
  process_spec v w =
    (inr (mk_result true (py "Specification processed successfully")
            (processed_data (sanitize self).2 (sanitize self).1 (clock w O))
            (clock w 1%nat)),
     mk_World (<[l := (sanitize self).2]> (heap w))
              (_processed_specs w ++ [l])
              (logged w ++ [(INFO, py "Successfully processed spec: "
                                    ++ SpecInput_str (sanitize self).2)])
              (advance 2 w)).
Proof. intros H Hv. unfold process_spec, process_spec_with. rewrite H, Hv. reflexivity. Qed.

Lemma processed_data_lengths self s t :
  processed_data self s t !! py "original_length" = Some (DInt (length (content self)))
  /\ processed_data self s t !! py "sanitized_length" = Some (DInt (length s)).
Proof.
  unfold processed_data. split.
  - apply lookup_insert_eq.
  - rewrite lookup_insert_ne by (vm_compute; discriminate).
    apply lookup_insert_eq.
Qed.

(** * The claims *)

Section InvalidInput.

Variable lower : pystr -> pystr.
Hypothesis lower_ascii :
  forall s, Forall (fun c => c < 128) s -> lower s = map ascii_lower s.

(** C1: [process_spec] on a [SpecInput] instance that is not valid raises
    (it returns nothing) a [ValueError] whose text is
    [Invalid specification: ] followed by [str] of the instance, and
    leaves the state as it was; the type-check branch is not taken.  For
    the instance made from content [x] and format [text] the error reads
    [Invalid specification: SpecInput(format=text, length=1, valid=False)]. *)
Theorem process_spec_invalid_raises :
  (forall (v : pyobj) (w : World) (l : loc) (self : SpecInput),
     as_SpecInput v w = Some (l, self) ->
     is_valid self = false ->
     process_spec v w =
       (inl (ValueError (py "Invalid specification: " ++ SpecInput_str self)), w)
     /\ occurs_in (SpecInput_str self)
                  (py "Invalid specification: " ++ SpecInput_str self)
     /\ py "Invalid specification: " ++ SpecInput_str self
        <> py "Invalid input: must be SpecInput instance")
  /\ (forall (w : World) (l : loc) (meta : option (list (pystr * pystr)))
             (t : datetime),
        heap w !! l = Some (SpecInput_init lower (py "x") (Some (py "text")) meta t) ->
        is_valid (SpecInput_init lower (py "x") (Some (py "text")) meta t) = false
        /\ process_spec (VRef l) w =
           (inl (ValueError
              (py "Invalid specification: SpecInput(format=text, length=1, valid=False)")),
            w)).
Proof.
  split.
  - intros v w l self Hi Hv. split_and!.
    + by apply process_spec_invalid with l.
    + exists (py "Invalid specification: "), []. by rewrite app_nil_r.
    + discriminate.
  - intros w l meta t Hl.
    assert (lower (py "text") = py "text") as Ht.
    { rewrite lower_ascii; [reflexivity|].
      apply (bool_decide_unpack _). vm_compute. exact I. }
    assert (is_valid (SpecInput_init lower (py "x") (Some (py "text")) meta t)
            = false) as Hv by reflexivity.
    split; [done|].
    rewrite (process_spec_invalid (VRef l) w l
               (SpecInput_init lower (py "x") (Some (py "text")) meta t));
      [| by simpl; rewrite Hl | done].
    unfold SpecInput_str. rewrite Hv.
    change (format (SpecInput_init lower (py "x") (Some (py "text")) meta t))
      with (lower (py "text")).
    rewrite Ht. reflexivity.
Qed.

End InvalidInput.

Lemma process_spec_invalid_raises_witness :
  let self := SpecInput_init (map ascii_lower) (py "x") (Some (py "text")) None 5%Z in
  let w := mk_World {[ 3%nat := self ]} [] [] (fun _ => 0%Z) in
  is_valid self = false
  /\ process_spec (VRef 3) w =
       (inl (ValueError
          (py "Invalid specification: SpecInput(format=text, length=1, valid=False)")),
        w).
Proof.
  intros self w.
  apply (proj2 (process_spec_invalid_raises (map ascii_lower) (fun _ _ => eq_refl))
           w 3%nat None 5%Z).
  vm_compute. reflexivity.
Defined.

Section Construction.

(** [str.lower]: only its behaviour on ASCII strings is used. *)
Variable lower : pystr -> pystr.
Hypothesis lower_ascii :
  forall s, Forall (fun c => c < 128) s -> lower s = map ascii_lower s.

Lemma lower_spelling name f :
  name ∈ [py "text"; py "markdown"; py "html"] ->
  spelling_of name f -> lower f = name.
Proof.
  intros Hn Hs.
  assert (Forall (fun d => 97 <= d <= 122) name) as Hl.
  { apply list_elem_of_In in Hn. simpl in Hn.
    destruct Hn as [<-|[<-|[<-|[]]]];
      apply (bool_decide_unpack _); vm_compute; exact I. }
  destruct (spelling_is_ascii _ _ Hl Hs) as [Ha Hm].
  by rewrite lower_ascii.
Qed.

(** C2: an instance constructed from content, format and metadata stores
    the format lower-cased, or [text] when the format given is empty or
    [None]; it is valid exactly when its trimmed content has at least 2
    characters and the stored format is [text], [markdown] or [html].
    So it is valid for every upper/lower-case spelling of these three
    names (given long enough content), and invalid whenever the trimmed
    content is shorter than 2, whatever the format. *)
Theorem is_valid_iff (content : pystr) (fmt : option pystr)
    (meta : option (list (pystr * pystr))) (t : datetime) :
  let self := SpecInput_init lower content fmt meta t in
  format self = match fmt with
                | None | Some [] => py "text"
                | Some f => lower f
                end
  /\ (is_valid self = true <->
      (2 <= length (strip content))%nat
      /\ format self ∈ [py "text"; py "markdown"; py "html"])
  /\ (forall name f : pystr,
        name ∈ [py "text"; py "markdown"; py "html"] ->
        spelling_of name f -> fmt = Some f ->
        (2 <= length (strip content))%nat -> is_valid self = true)
  /\ ((length (strip content) < 2)%nat -> is_valid self = false).
Proof.
  intros self. split_and!.
  - subst self. simpl. by destruct fmt as [[|c f]|].
  - rewrite is_valid_spec, valid_formats_names. done.
  - intros name f Hn Hs -> Hlen.
    apply is_valid_spec. split; [done|]. apply valid_formats_names.
    subst self. simpl.
    destruct f as [|c f].
    + inversion Hs; subst. apply list_elem_of_In in Hn. simpl in Hn.
      destruct Hn as [Hn|[Hn|[Hn|[]]]]; discriminate.
    + by rewrite (lower_spelling _ _ Hn Hs).
  - intros Hlen. destruct (is_valid self) eqn:E; [|done].
    apply is_valid_spec in E as [E _]. simpl in E. lia.
Qed.

End Construction.

Lemma is_valid_iff_witness :
  let self := SpecInput_init (map ascii_lower) (py " Valid content ")
                (Some (py "MarkDown")) None 0%Z in
  format self = py "markdown"
  /\ (is_valid self = true <->
      (2 <= length (strip (py " Valid content ")))%nat
      /\ format self ∈ [py "text"; py "markdown"; py "html"])
  /\ (forall name f : pystr,
        name ∈ [py "text"; py "markdown"; py "html"] ->
        spelling_of name f -> Some (py "MarkDown") = Some f ->
        (2 <= length (strip (py " Valid content ")))%nat -> is_valid self = true)
  /\ ((length (strip (py " Valid content ")) < 2)%nat -> is_valid self = false).
Proof.
  exact (is_valid_iff (map ascii_lower) (fun _ _ => eq_refl)
           (py " Valid content ") (Some (py "MarkDown")) None 0%Z).
Defined.

(** C5: once [sanitize] has been called on an instance, every later
    [sanitize] call on it returns the string the first call returned,
    whatever is assigned to its [content] in between. *)
Theorem sanitize_cache_stable (self : SpecInput) (ops : list caller_op) :
  Forall (fun later => later = (sanitize self).1)
         (run_ops ops (sanitize self).2).
Proof. apply run_ops_cached, sanitize_fills_cache. Qed.

(** C6: for an argument that is not a [SpecInput] instance, [process_spec]
    returns (it does not raise) a result with [success] false and message
    [Invalid input: must be SpecInput instance]; history and objects are
    unchanged.  A plain string is such an argument. *)
Theorem process_spec_rejects_non_instances :
  (forall (v : pyobj) (w : World),
     as_SpecInput v w = None ->
     exists (r : SpecInputProcessingResult) (w' : World),
       process_spec v w = (inr r, w')
       /\ success r = false
       /\ message r = py "Invalid input: must be SpecInput instance"
       /\ _processed_specs w' = _processed_specs w
       /\ heap w' = heap w)
  /\ (forall (s : pystr) (w : World), as_SpecInput (VStr s) w = None).
Proof.
  split; [|done].
  intros v w H. rewrite (process_spec_not_instance _ _ H).
  eexists _, _. split_and!; reflexivity.
Qed.

Lemma process_spec_rejects_non_instances_witness :
  let w := mk_World ∅ [4%nat] [] (fun _ => 0%Z) in
  exists (r : SpecInputProcessingResult) (w' : World),
    process_spec (VStr (py "not a spec object")) w = (inr r, w')
    /\ success r = false
    /\ message r = py "Invalid input: must be SpecInput instance"
    /\ _processed_specs w' = _processed_specs w
    /\ heap w' = heap w.
Proof.
  intros w.
  apply (proj1 process_spec_rejects_non_instances
           (VStr (py "not a spec object")) w).
  reflexivity.
Defined.

(** C7: [handle_invalid_spec] returns, without raising, for [None] a
    failure result with the message [Cannot process null specification],
    and for a [SpecInput] a failure result whose [data] has under [errors]
    the list made of the content-too-short message (which names the
    minimum, 2) exactly when the trimmed content is shorter than 2,
    followed by the invalid-format message (which names the format and
    every valid format) exactly when the format is not a valid one.  The
    list has at most two entries and is empty exactly when the instance is
    valid.  [order] is the order in which the set of valid formats happens
    to be listed. *)
Theorem handle_invalid_spec_reports (order : list pystr) :
  order ≡ₚ VALID_FORMATS ->
  (forall w : World,
     exists (r : SpecInputProcessingResult) (w' : World),
       handle_invalid_spec order VNone w = (inr r, w')
       /\ success r = false
       /\ message r = py "Cannot process null specification")
  /\ (forall (w : World) (l : loc) (self : SpecInput),
        heap w !! l = Some self ->
        exists (r : SpecInputProcessingResult) (w' : World)
               (errors : list pystr),
          handle_invalid_spec order (VRef l) w = (inr r, w')
          /\ success r = false
          /\ data r !! py "errors" = Some (DList errors)
          /\ errors =
               (if decide (length (strip (content self)) < 2)%nat
                then [content_too_short_msg] else [])
               ++ (if decide (format self ∈ [py "text"; py "markdown"; py "html"])
                   then [] else [invalid_format_msg order (format self)])
          /\ (length errors <= 2)%nat
          /\ (errors = [] <-> is_valid self = true))
  /\ occurs_in (str_of_nat 2) content_too_short_msg
  /\ (forall fmt : pystr,
        occurs_in fmt (invalid_format_msg order fmt)
        /\ forall f : pystr, f ∈ [py "text"; py "markdown"; py "html"] ->
             occurs_in f (invalid_format_msg order fmt)).
Proof.
  intros Hperm. split_and!.
  - intros w. eexists _, _. split_and!; reflexivity.
  - intros w l self Hl.
    eexists _, _, (_get_validation_errors order self).
    split_and!.
    + unfold handle_invalid_spec. simpl. rewrite Hl. simpl. reflexivity.
    + reflexivity.
    + simpl. apply lookup_singleton_eq.
    + rewrite get_validation_errors_cases.
      destruct (decide (format self ∈ VALID_FORMATS)) as [Hf|Hf];
        destruct (decide (format self ∈ [py "text"; py "markdown"; py "html"]))
          as [Hg|Hg]; try done;
        exfalso; rewrite valid_formats_names in Hf; done.
    + rewrite get_validation_errors_cases.
      destruct (decide _); destruct (decide _); simpl; lia.
    + rewrite get_validation_errors_cases, is_valid_spec.
      destruct (decide _); destruct (decide _); simpl;
        split; try done; try (intros [? ?]; done || lia).
      intros _. split; [lia|done].
  - exists (py "Content too short (minimum "), (py " characters)"). reflexivity.
  - intros fmt. split.
    + unfold invalid_format_msg.
      exists (py "Invalid format '"),
             (py "'. Valid formats: " ++ join (py ", ") order).
      reflexivity.
    + intros f Hf. unfold invalid_format_msg.
      do 3 apply occurs_in_app_r. apply occurs_in_join.
      rewrite Hperm. by apply valid_formats_names.
Qed.

Lemma handle_invalid_spec_reports_witness :
  let order := [py "html"; py "markdown"; py "text"] in
  let self := SpecInput_init (map ascii_lower) (py " x ") (Some (py "PDF")) None 0%Z in
  let w := mk_World {[ O := self ]} [] [] (fun _ => 0%Z) in
  order ≡ₚ VALID_FORMATS
  /\ exists (r : SpecInputProcessingResult) (w' : World) (errors : list pystr),
       handle_invalid_spec order (VRef O) w = (inr r, w')
       /\ success r = false
       /\ data r !! py "errors" = Some (DList errors)
       /\ errors =
            (if decide (length (strip (content self)) < 2)%nat
             then [content_too_short_msg] else [])
            ++ (if decide (format self ∈ [py "text"; py "markdown"; py "html"])
                then [] else [invalid_format_msg order (format self)])
       /\ (length errors <= 2)%nat
       /\ (errors = [] <-> is_valid self = true).
Proof.
  intros order self w.
  assert (order ≡ₚ VALID_FORMATS) as Hp.
  { apply (bool_decide_unpack _). vm_compute. exact I. }
  split; [exact Hp|].
  apply (proj1 (proj2 (handle_invalid_spec_reports order Hp)) w O self).
  vm_compute. reflexivity.
Defined.

(** C8: the first step of [sanitize] removes the [<script ...>...</script>]
    blocks of the content as a left-to-right scan meets them: where a block
    starts (opening name in any case, attributes up to the next [>], any
    content, line breaks included) the shortest block starting there is
    dropped and the scan goes on behind it; a character at which no block
    starts is kept.  [sanitize] returns what the later steps leave of this,
    trimmed; so content with a shortest script block after text without
    [<] sanitizes as the same content without that block.  For
    [<script>alert('x')</script>Valid content] it returns [Valid content],
    in which [<script>] does not occur. *)
Theorem sanitize_removes_script_blocks :
  (forall s b rest : pystr,
     s = b ++ rest -> is_block (py "script") b ->
     exists b' rest' : pystr,
       s = b' ++ rest' /\ is_block (py "script") b'
       /\ (forall b2 rest2 : pystr,
             s = b2 ++ rest2 -> is_block (py "script") b2 ->
             (length b' <= length b2)%nat)
       /\ Re.sub (paired_re (py "script")) s DOTALL_IGNORECASE
          = Re.sub (paired_re (py "script")) rest' DOTALL_IGNORECASE)
  /\ (forall (c : N) (s : pystr),
        (forall b rest : pystr, c :: s = b ++ rest -> ~ is_block (py "script") b) ->
        Re.sub (paired_re (py "script")) (c :: s) DOTALL_IGNORECASE
        = c :: Re.sub (paired_re (py "script")) s DOTALL_IGNORECASE)
  /\ (forall content : pystr,
        sanitize_content content
        = strip (fold_left remove_tag harmful_tags
                   (Re.sub (paired_re (py "script")) content DOTALL_IGNORECASE))
        /\ lstrip (sanitize_content content) = sanitize_content content
        /\ rstrip (sanitize_content content) = sanitize_content content)
  /\ (forall pre b rest : pystr,
        60 ∉ pre -> is_block (py "script") b ->
        (forall b2 rest2 : pystr,
           b ++ rest = b2 ++ rest2 -> is_block (py "script") b2 ->
           (length b <= length b2)%nat) ->
        sanitize_content (pre ++ b ++ rest) = sanitize_content (pre ++ rest))
  /\ sanitize_content (py "<script>alert('x')</script>Valid content")
     = py "Valid content"
  /\ ~ occurs_in (py "<script>") (py "Valid content").
Proof.
  split_and!.
  - intros s b rest -> Hb.
    destruct (block_match_complete _ _ rest Hb) as (n & Hn & Hle).
    destruct (block_match_sound _ _ _ Hn) as [[Hpos Hlen] Hblock].
    exists (take n (b ++ rest)), (drop n (b ++ rest)). split_and!.
    + by rewrite take_drop.
    + done.
    + intros b2 rest2 E Hb2.
      destruct (block_match_complete _ _ rest2 Hb2) as (n2 & Hn2 & Hle2).
      rewrite <- E, Hn in Hn2. injection Hn2 as <-.
      rewrite length_take. lia.
    + destruct n as [|n]; [lia|]. by apply sub_match.
  - intros c s Hno. apply sub_no_match_here.
    destruct (Re.match_here _ _ (c :: s)) as [n|] eqn:Hn; [|done].
    destruct (block_match_sound _ _ _ Hn) as [_ Hblock].
    exfalso. apply (Hno (take n (c :: s)) (drop n (c :: s))); [|done].
    by rewrite take_drop.
  - intros content. split; [reflexivity|]. apply strip_is_trimmed.
  - intros pre b rest Hpre Hb Hmin.
    destruct (shortest_block_matched _ _ rest Hb Hmin) as (n & Hn & Hd).
    unfold sanitize_content.
    rewrite (sub_keeps_prefix _ pre (b ++ rest)), (sub_keeps_prefix _ pre rest) by done.
    by rewrite (sub_match _ _ _ _ Hn), Hd.
  - vm_compute. reflexivity.
  - rewrite <- contains_spec. vm_compute. discriminate.
Qed.

Lemma sanitize_removes_script_blocks_witness :
  let s := py "<SCRIPT src='a.js'>" ++ [10] ++ py "run()" ++ [10]
           ++ py "</Script>after</script>" in
  exists b' rest' : pystr,
    s = b' ++ rest' /\ is_block (py "script") b'
    /\ (forall b2 rest2 : pystr,
          s = b2 ++ rest2 -> is_block (py "script") b2 ->
          (length b' <= length b2)%nat)
    /\ Re.sub (paired_re (py "script")) s DOTALL_IGNORECASE
       = Re.sub (paired_re (py "script")) rest' DOTALL_IGNORECASE.
Proof.
  intros s.
  apply (proj1 sanitize_removes_script_blocks s s []).
  - symmetry. apply app_nil_r.
  - exists (py "<SCRIPT"), (py " src='a.js'"),
      ([10] ++ py "run()" ++ [10] ++ py "</Script>after"), (py "</script>").
    split_and!.
    + reflexivity.
    + unfold same_ignoring_case. apply (bool_decide_unpack _). vm_compute. exact I.
    + apply (bool_decide_unpack _). vm_compute. exact I.
    + unfold same_ignoring_case. apply (bool_decide_unpack _). vm_compute. exact I.
Defined.

(** C9, as stated, fails for [process_spec]: an instance made with content
    [hello world], sanitized once, then given the content [ab], is valid and
    is processed with success, and the result reports [original_length] 2
    and [sanitized_length] 11 (the cached string). *)
Lemma stale_cache_longer_than_content :
  let made := SpecInput_init (map ascii_lower) (py "hello world")
                default_format None 0%Z in
  let self := set_content (sanitize made).2 (py "ab") in
  let w := mk_World {[ O := self ]} [] [] (fun _ => 0%Z) in
  match (process_spec (VRef O) w).1 with
  | inr r => success r = true
             /\ data r !! py "original_length" = Some (DInt 2)
             /\ data r !! py "sanitized_length" = Some (DInt 11)
  | inl _ => False
  end.
Proof. vm_compute. repeat split. Qed.

(** C9, amended: for every content string the string [sanitize] computes is
    no longer than the content; and in every success result of
    [process_spec] on an instance whose cache is empty or holds the string
    computed from its present content, [sanitized_length] is at most
    [original_length]. *)
Theorem sanitize_never_lengthens :
  (forall content : pystr,
     (length (sanitize_content content) <= length content)%nat)
  /\ (forall (v : pyobj) (w w' : World) (l : loc) (self : SpecInput)
             (r : SpecInputProcessingResult),
        as_SpecInput v w = Some (l, self) ->
        (_sanitized_content self = None \/
         _sanitized_content self = Some (sanitize_content (content self))) ->
        process_spec v w = (inr r, w') ->
        success r = true ->
        exists o s : nat,
          data r !! py "original_length" = Some (DInt o)
          /\ data r !! py "sanitized_length" = Some (DInt s)
          /\ (s <= o)%nat).
Proof.
  split; [apply sanitize_content_length|].
  intros v w w' l self r Hi Hc Hp Hs.
  destruct (is_valid self) eqn:Hv.
  2:{ rewrite (process_spec_invalid _ _ _ _ Hi Hv) in Hp. discriminate. }
  rewrite (process_spec_valid _ _ _ _ Hi Hv) in Hp.
  injection Hp as <- _.
  exists (length (content (sanitize self).2)), (length (sanitize self).1).
  simpl. split_and!; try apply processed_data_lengths.
  rewrite sanitize_keeps_content.
  destruct Hc as [Hc|Hc].
  - rewrite (sanitize_fresh _ Hc). simpl. apply sanitize_content_length.
  - rewrite (sanitize_cached _ _ Hc). simpl. apply sanitize_content_length.
Qed.

Lemma sanitize_never_lengthens_witness :
  let self := SpecInput_init (map ascii_lower)
                (py "  <form>a</form>Some text ") default_format None 0%Z in
  let w := mk_World {[ O := self ]} [] [] (fun _ => 0%Z) in
  exists o s : nat,
    data (mk_result true (py "Specification processed successfully")
            (processed_data (sanitize self).2 (sanitize self).1 0%Z) 0%Z)
      !! py "original_length" = Some (DInt o)
    /\ data (mk_result true (py "Specification processed successfully")
            (processed_data (sanitize self).2 (sanitize self).1 0%Z) 0%Z)
      !! py "sanitized_length" = Some (DInt s)
    /\ (s <= o)%nat.
Proof.
  intros self w.
  apply (proj2 sanitize_never_lengthens (VRef O) w
           (process_spec (VRef O) w).2 O self).
  - vm_compute. reflexivity.
  - left. reflexivity.
  - vm_compute. reflexivity.
  - reflexivity.
Defined.

(** C10: the unpaired-tag step takes every opening tag whose name begins
    with a harmful name: whatever follows the name up to the [>], the
    pattern for that name removes the whole tag.  So [<formula x>] and
    [<inputs>] are removed by [sanitize], though neither [formula] nor
    [inputs] is in the harmful set. *)
Theorem sanitize_removes_longer_tag_names :
  (forall tag opening more : pystr,
     tag ∈ harmful_tags ->
     same_ignoring_case (py "<" ++ tag) opening -> 62 ∉ more ->
     Re.sub (unpaired_re tag) (opening ++ more ++ py ">") ONLY_IGNORECASE = [])
  /\ sanitize_content (py "<formula x>") = []
  /\ sanitize_content (py "<inputs>") = []
  /\ (py "formula" ∉ harmful_tags)
  /\ (py "inputs" ∉ harmful_tags)
  /\ py "formula" <> py "script" /\ py "inputs" <> py "script".
Proof.
  split_and!; try (vm_compute; reflexivity); try (vm_compute; discriminate).
  - intros tag opening more _ Ho Hm. apply sub_whole.
    change (py ">") with [62].
    rewrite (unpaired_matches_tag _ _ _ Ho Hm). f_equal.
    rewrite !length_app. simpl. lia.
  - apply (bool_decide_unpack _); vm_compute; exact I.
  - apply (bool_decide_unpack _); vm_compute; exact I.
Qed.

Lemma sanitize_removes_longer_tag_names_witness :
  py "form" ∈ harmful_tags
  /\ same_ignoring_case (py "<" ++ py "form") (py "<FORM")
  /\ (62 ∉ py "ula x")
  /\ Re.sub (unpaired_re (py "form")) (py "<FORM" ++ py "ula x" ++ py ">")
       ONLY_IGNORECASE = [].
Proof.
  assert (py "form" ∈ harmful_tags) as H1
    by (apply (bool_decide_unpack _); vm_compute; exact I).
  assert (same_ignoring_case (py "<" ++ py "form") (py "<FORM")) as H2
    by (unfold same_ignoring_case; apply (bool_decide_unpack _);
        vm_compute; exact I).
  assert (62 ∉ py "ula x") as H3
    by (apply (bool_decide_unpack _); vm_compute; exact I).
  split; [exact H1|]. split; [exact H2|]. split; [exact H3|].
  exact (proj1 sanitize_removes_longer_tag_names
           (py "form") (py "<FORM") (py "ula x") H1 H2 H3).
Defined.

(** * Further properties of the code *)

(** ** Text outside tags *)

Lemma unpaired_no_match_off_lt tag c s :
  c <> 60 -> Re.match_here ONLY_IGNORECASE (unpaired_re tag) (c :: s) = None.
Proof.
  intros Hc.
  change (unpaired_re tag) with
    ((Re.Lit 60, Re.One)
     :: Re.lits tag
        ++ [(Re.NotChar 62, Re.Star); (Re.Lit 47, Re.Opt); (Re.Lit 62, Re.One)]).
  cbn [Re.match_here].
  destruct (Re.accepts ONLY_IGNORECASE (Re.Lit 60) c) eqn:E; [|done].
  apply accepts_lit in E; [|done]. change (ascii_lower 60) with 60 in E.
  apply (proj1 (fold_case_lt c)) in E. contradiction.
Qed.

Lemma sub_keeps_prefix_unpaired tag pre s :
  60 ∉ pre ->
  Re.sub (unpaired_re tag) (pre ++ s) ONLY_IGNORECASE
  = pre ++ Re.sub (unpaired_re tag) s ONLY_IGNORECASE.
Proof.
  induction pre as [|c pre IH]; [done|].
  intros [Hc Hpre]%not_elem_of_cons. simpl app.
  rewrite sub_no_match_here by (apply unpaired_no_match_off_lt; congruence).
  by rewrite IH.
Qed.

Lemma remove_tag_keeps_prefix tag pre s :
  60 ∉ pre -> remove_tag (pre ++ s) tag = pre ++ remove_tag s tag.
Proof.
  intros H. unfold remove_tag.
  by rewrite sub_keeps_prefix, sub_keeps_prefix_unpaired.
Qed.

Lemma fold_remove_tag_keeps_prefix tags pre s :
  60 ∉ pre ->
  fold_left remove_tag tags (pre ++ s) = pre ++ fold_left remove_tag tags s.
Proof.
  intros H. revert s. induction tags as [|t tags IH]; intros s; [done|].
  simpl. by rewrite remove_tag_keeps_prefix, IH.
Qed.

Lemma sub_nil p fl : Re.sub p [] fl = [].
Proof. reflexivity. Qed.

Lemma fold_remove_tag_nil tags : fold_left remove_tag tags [] = [].
Proof. induction tags as [|t tags IH]; [done|]. simpl. exact IH. Qed.

Lemma sanitize_content_keeps_prefix pre s :
  60 ∉ pre ->
  sanitize_content (pre ++ s)
  = strip (pre ++ fold_left remove_tag harmful_tags
             (Re.sub (paired_re (py "script")) s DOTALL_IGNORECASE)).
Proof.
  intros H. unfold sanitize_content.
  by rewrite sub_keeps_prefix, fold_remove_tag_keeps_prefix.
Qed.

Lemma sanitize_content_no_lt text :
  60 ∉ text -> sanitize_content text = strip text.
Proof.
  intros H. rewrite <- (app_nil_r text) at 1.
  rewrite (sanitize_content_keeps_prefix text [] H), sub_nil, fold_remove_tag_nil.
  by rewrite app_nil_r.
Qed.

(** X1: [sanitize] leaves the text in front of the first [<] as it is, up
    to the final trimming: content that starts with text free of [<]
    sanitizes to that text followed by what is kept of the rest, trimmed;
    content with no [<] at all is only trimmed. *)
Theorem sanitize_keeps_text_before_tags :
  (forall pre s : pystr,
     60 ∉ pre ->
     exists kept : pystr,
       sanitize_content (pre ++ s) = strip (pre ++ kept)
       /\ (length kept <= length s)%nat)
  /\ (forall text : pystr, 60 ∉ text -> sanitize_content text = strip text).
Proof.
  split.
  - intros pre s H. eexists. split; [by apply sanitize_content_keeps_prefix|].
    etrans; [apply fold_remove_tag_length|]. apply sub_length.
  - apply sanitize_content_no_lt.
Qed.

Lemma sanitize_keeps_text_before_tags_witness :
  (60 ∉ py " Intro: ")
  /\ exists kept : pystr,
       sanitize_content (py " Intro: " ++ py "<form>x</form> done ")
       = strip (py " Intro: " ++ kept)
       /\ (length kept <= length (py "<form>x</form> done "))%nat.
Proof.
  assert (60 ∉ py " Intro: ") as H
    by (apply (bool_decide_unpack _); vm_compute; exact I).
  split; [exact H|].
  exact (proj1 sanitize_keeps_text_before_tags
           (py " Intro: ") (py "<form>x</form> done ") H).
Defined.

(** ** Validity and white space *)

Lemma lstrip_spaces ws s : forallb isspace ws = true -> lstrip (ws ++ s) = lstrip s.
Proof.
  induction ws as [|c ws IH]; [done|]. simpl.
  intros [-> H]%andb_true_iff. by apply IH.
Qed.

Lemma lstrip_all_spaces ws : forallb isspace ws = true -> lstrip ws = [].
Proof.
  intros H. rewrite <- (app_nil_r ws). by rewrite lstrip_spaces.
Qed.

Lemma rstrip_spaces s ws : forallb isspace ws = true -> rstrip (s ++ ws) = rstrip s.
Proof.
  intros H. unfold rstrip. rewrite rev_app_distr, lstrip_spaces; [done|].
  rewrite forallb_forall in *. intros x Hx. apply H. by apply in_rev.
Qed.

Lemma lstrip_app_nonempty s t :
  lstrip s <> [] -> lstrip (s ++ t) = lstrip s ++ t.
Proof.
  induction s as [|c s IH]; [done|]. simpl.
  destruct (isspace c); [apply IH|done].
Qed.

Lemma strip_surrounding_spaces ws s ws' :
  forallb isspace ws = true -> forallb isspace ws' = true ->
  strip (ws ++ s ++ ws') = strip s.
Proof.
  intros H H'. unfold strip. rewrite lstrip_spaces by done.
  destruct (lstrip s) as [|c t] eqn:E.
  - assert (lstrip (s ++ ws') = []) as ->; [|done].
    clear H. induction s as [|d s IH]; simpl in *.
    + by apply lstrip_all_spaces.
    + destruct (isspace d); [by apply IH|done].
  - rewrite lstrip_app_nonempty by (rewrite E; done).
    rewrite E. by apply rstrip_spaces.
Qed.

(** X2: validity looks at the content only through its trimmed form, and
    not at the sanitize cache: white space put around the content does not
    change [is_valid]; content made of white space only is never valid; and
    a [sanitize] call leaves [is_valid] as it was. *)
Theorem is_valid_ignores_surrounding_space :
  (forall (self : SpecInput) (ws ws' : pystr),
     forallb isspace ws = true -> forallb isspace ws' = true ->
     is_valid (set_content self (ws ++ content self ++ ws')) = is_valid self)
  /\ (forall self : SpecInput,
        forallb isspace (content self) = true -> is_valid self = false)
  /\ (forall self : SpecInput, is_valid (sanitize self).2 = is_valid self).
Proof.
  split_and!.
  - intros self ws ws' H H'. unfold is_valid. simpl.
    by rewrite strip_surrounding_spaces.
  - intros self H. unfold is_valid, strip.
    by rewrite lstrip_all_spaces.
  - intros self. unfold sanitize.
    by destruct (_sanitized_content self).
Qed.

Lemma is_valid_ignores_surrounding_space_witness :
  let self := mk_SpecInput (py "ok") (py "html") [] 0%Z None in
  forallb isspace [9; 32; 160] = true /\ forallb isspace [10; 8232] = true
  /\ is_valid (set_content self ([9; 32; 160] ++ content self ++ [10; 8232]))
     = is_valid self.
Proof.
  intros self. split; [reflexivity|]. split; [reflexivity|].
  apply (proj1 is_valid_ignores_surrounding_space self [9; 32; 160] [10; 8232]);
    reflexivity.
Defined.

(** ** What the tag patterns take *)

Section UnpairedMatching.

Variable fl : Re.flags.
Hypothesis ignorecase : Re.IGNORECASE fl = true.

Lemma unpaired_tail_at_gt rest :
  Re.match_here fl [(Re.Lit 47, Re.Opt); (Re.Lit 62, Re.One)] (62 :: rest)
  = Some 1%nat.
Proof.
  assert (Re.accepts fl (Re.Lit 62) 62 = true) as Hgt by by apply accepts_gt.
  assert (Re.accepts fl (Re.Lit 47) 62 = false) as Hslash.
  { destruct (Re.accepts fl (Re.Lit 47) 62) eqn:E; [|done].
    apply accepts_lit in E; [|done]. vm_compute in E. discriminate. }
  cbn [Re.match_here]. by rewrite Hslash, Hgt.
Qed.

Lemma match_unpaired_tail_rest more rest :
  62 ∉ more ->
  Re.star_greedy (Re.accepts fl (Re.NotChar 62))
    (Re.match_here fl [(Re.Lit 47, Re.Opt); (Re.Lit 62, Re.One)])
    (more ++ 62 :: rest)
  = Some (length more + 1)%nat.
Proof.
  intros Ha. induction more as [|ch more IH].
  - cbn [app Re.star_greedy].
    destruct (Re.accepts fl (Re.NotChar 62) 62) eqn:E.
    { by apply accepts_not_gt in E. }
    apply unpaired_tail_at_gt.
  - apply not_elem_of_cons in Ha as [Hc Ha].
    cbn [app Re.star_greedy].
    assert (Re.accepts fl (Re.NotChar 62) ch = true) as ->
      by (apply accepts_not_gt; congruence).
    by rewrite (IH Ha).
Qed.

Lemma match_unpaired_tail_inv s n :
  Re.star_greedy (Re.accepts fl (Re.NotChar 62))
    (Re.match_here fl [(Re.Lit 47, Re.Opt); (Re.Lit 62, Re.One)]) s = Some n ->
  exists more rest, s = more ++ 62 :: rest /\ (62 ∉ more)
                    /\ n = (length more + 1)%nat.
Proof.
  revert n. induction s as [|ch s IH]; intros n H.
  - cbn in H. done.
  - cbn [Re.star_greedy] in H.
    destruct (Re.accepts fl (Re.NotChar 62) ch) eqn:E.
    + apply accepts_not_gt in E; [|done].
      destruct (Re.star_greedy _ _ s) as [n'|] eqn:H'.
      * injection H as <-.
        destruct (IH _ eq_refl) as (more & rest & -> & Ha & ->).
        exists (ch :: more), rest. split_and!; try done.
        by apply not_elem_of_cons.
      * exfalso. cbn [Re.match_here] in H.
        assert (Re.accepts fl (Re.Lit 62) ch = false) as Hn.
        { destruct (Re.accepts fl (Re.Lit 62) ch) eqn:E'; [|done].
          by apply accepts_gt in E'. }
        rewrite Hn in H.
        destruct (Re.accepts fl (Re.Lit 47) ch); [|done].
        destruct s as [|d s]; [done|].
        destruct (Re.accepts fl (Re.Lit 62) d) eqn:Ed; [|done].
        apply accepts_gt in Ed as ->; [|done].
        cbn [Re.star_greedy] in H'.
        destruct (Re.accepts fl (Re.NotChar 62) 62) eqn:E2.
        { by apply accepts_not_gt in E2. }
        by rewrite unpaired_tail_at_gt in H'.
    + assert (ch = 62) as ->.
      { destruct (N.eq_dec ch 62) as [|Hne]; [done|].
        apply (proj2 (accepts_not_gt fl ignorecase ch)) in Hne. congruence. }
      rewrite unpaired_tail_at_gt in H. injection H as <-.
      exists [], s. split_and!; try done. apply not_elem_of_nil.
Qed.

End UnpairedMatching.

(** X3: at a position, the unpaired pattern for [tag] matches exactly
    when the text there is [<tag] in any case, then any characters other
    than [>], then [>]; the match is that text up to and including this
    first [>] and nothing behind it.  So in content without any [>] the
    unpaired step removes nothing. *)
Theorem unpaired_match_is_opening_tag (tag : pystr) :
  (forall (s : pystr) (n : nat),
     Re.match_here ONLY_IGNORECASE (unpaired_re tag) s = Some n <->
     exists opening more rest : pystr,
       s = opening ++ more ++ 62 :: rest
       /\ same_ignoring_case (py "<" ++ tag) opening
       /\ (62 ∉ more)
       /\ n = (length opening + (length more + 1))%nat)
  /\ (forall s : pystr,
        62 ∉ s -> Re.sub (unpaired_re tag) s ONLY_IGNORECASE = s).
Proof.
  assert (forall (s : pystr) (n : nat),
     Re.match_here ONLY_IGNORECASE (unpaired_re tag) s = Some n ->
     exists opening more rest : pystr,
       s = opening ++ more ++ 62 :: rest
       /\ same_ignoring_case (py "<" ++ tag) opening
       /\ (62 ∉ more)
       /\ n = (length opening + (length more + 1))%nat) as Hinv.
  { intros s n H. unfold unpaired_re in H.
    destruct (match_lits_inv ONLY_IGNORECASE eq_refl _ _ _ _ H)
      as (o & s1 & m & -> & Ho & H1 & ->).
    rewrite match_here_star in H1.
    destruct (match_unpaired_tail_inv ONLY_IGNORECASE eq_refl _ _ H1)
      as (more & rest & -> & Ha & ->).
    by exists o, more, rest. }
  split.
  - intros s n. split; [apply Hinv|].
    intros (o & more & rest & -> & Ho & Ha & ->). unfold unpaired_re.
    apply match_lits_intro; [done|done|].
    rewrite match_here_star. by apply match_unpaired_tail_rest.
  - intros s Hs. induction s as [|c s IH]; [done|].
    apply not_elem_of_cons in Hs as [Hc Hs].
    rewrite sub_no_match_here, IH; [done|done|].
    destruct (Re.match_here _ _ (c :: s)) as [n|] eqn:Hn; [|done].
    destruct (Hinv _ _ Hn) as (o & more & rest & E & _).
    exfalso. assert (62 ∈ c :: s) as Hin.
    { rewrite E, !elem_of_app. right. right. apply elem_of_cons. by left. }
    apply elem_of_cons in Hin as [Hin|Hin]; [congruence|done].
Qed.

Lemma unpaired_match_is_opening_tag_witness :
  (62 ∉ py "<input type=text")
  /\ Re.sub (unpaired_re (py "input")) (py "<input type=text") ONLY_IGNORECASE
     = py "<input type=text".
Proof.
  assert (62 ∉ py "<input type=text") as H
    by (apply (bool_decide_unpack _); vm_compute; exact I).
  split; [exact H|].
  exact (proj2 (unpaired_match_is_opening_tag (py "input")) _ H).
Defined.

(** X4: the paired step for a tag name drops a block of that name with
    all its content: content that has, after text free of [<], a shortest
    block [<tag ...>...</tag>] becomes that text followed by the result for
    what comes behind the block; content in which no block of the name
    starts anywhere is returned unchanged. *)
Theorem paired_step_drops_blocks (tag : pystr) :
  (forall pre b rest : pystr,
     60 ∉ pre -> is_block tag b ->
     (forall b2 rest2 : pystr,
        b ++ rest = b2 ++ rest2 -> is_block tag b2 ->
        (length b <= length b2)%nat) ->
     Re.sub (paired_re tag) (pre ++ b ++ rest) DOTALL_IGNORECASE
     = pre ++ Re.sub (paired_re tag) rest DOTALL_IGNORECASE)
  /\ (forall s : pystr,
        (forall pre b rest : pystr, s = pre ++ b ++ rest -> ~ is_block tag b) ->
        Re.sub (paired_re tag) s DOTALL_IGNORECASE = s).
Proof.
  split.
  - intros pre b rest Hpre Hb Hmin.
    destruct (shortest_block_matched _ _ rest Hb Hmin) as (n & Hn & Hd).
    by rewrite sub_keeps_prefix, (sub_match _ _ _ _ Hn), Hd.
  - intros s. induction s as [|c s IH]; intros Hno; [done|].
    rewrite sub_no_match_here, IH; [done| |].
    + intros pre b rest -> Hb. by apply (Hno (c :: pre) b rest).
    + destruct (Re.match_here _ _ (c :: s)) as [n|] eqn:Hn; [|done].
      destruct (block_match_sound _ _ _ Hn) as [_ Hblock].
      exfalso. apply (Hno [] (take n (c :: s)) (drop n (c :: s))); [|done].
      by rewrite app_nil_l, take_drop.
Qed.

Lemma paired_step_drops_blocks_witness :
  let b := py "<Form action=x>" ++ [10] ++ py "<p>hi</p></FORM>" in
  Re.sub (paired_re (py "form")) (py "Fill in: " ++ b ++ py " thanks")
    DOTALL_IGNORECASE
  = py "Fill in: " ++ Re.sub (paired_re (py "form")) (py " thanks")
                        DOTALL_IGNORECASE.
Proof.
  intros b.
  apply (proj1 (paired_step_drops_blocks (py "form"))).
  - apply (bool_decide_unpack _). vm_compute. exact I.
  - exists (py "<Form"), (py " action=x"), ([10] ++ py "<p>hi</p>"), (py "</FORM>").
    split_and!.
    + reflexivity.
    + unfold same_ignoring_case. apply (bool_decide_unpack _). vm_compute. exact I.
    + apply (bool_decide_unpack _). vm_compute. exact I.
    + unfold same_ignoring_case. apply (bool_decide_unpack _). vm_compute. exact I.
  - intros b2 rest2 E Hb2.
    destruct (block_match_complete _ _ rest2 Hb2) as (n2 & Hn2 & Hle2).
    rewrite <- E in Hn2. vm_compute in Hn2. injection Hn2 as <-.
    etrans; [|exact Hle2]. vm_compute. reflexivity.
Defined.

(** ** The service and its history *)

Lemma as_SpecInput_ref v w l self :
  as_SpecInput v w = Some (l, self) -> v = VRef l /\ heap w !! l = Some self.
Proof.
  destruct v as [| | |l']; try done. simpl.
  destruct (heap w !! l') eqn:E; [|done]. by intros [= <- <-].
Qed.

Lemma sanitize_again self :
  sanitize (sanitize self).2 = ((sanitize self).1, (sanitize self).2).
Proof. apply sanitize_cached, sanitize_fills_cache. Qed.

Lemma sanitize_keeps_format self : format (sanitize self).2 = format self.
Proof. unfold sanitize. by destruct (_sanitized_content self). Qed.

Lemma sanitize_keeps_created_at self :
  created_at (sanitize self).2 = created_at self.
Proof. unfold sanitize. by destruct (_sanitized_content self). Qed.

Lemma is_valid_after_sanitize self : is_valid (sanitize self).2 = is_valid self.
Proof. unfold sanitize. by destruct (_sanitized_content self). Qed.

Lemma processed_data_dom self s t :
  dom (processed_data self s t)
  = ({[ py "original_length"; py "sanitized_length"; py "format";
        py "created_at"; py "processed_at" ]} : gset pystr).
Proof.
  unfold processed_data. rewrite !dom_insert_L, dom_empty_L. set_solver.
Qed.

Lemma processed_data_entries self s t :
  processed_data self s t !! py "format" = Some (DStr (format self))
  /\ processed_data self s t !! py "created_at" = Some (DIso (created_at self))
  /\ processed_data self s t !! py "processed_at" = Some (DIso t).
Proof.
  unfold processed_data. split_and!.
  - do 2 (rewrite lookup_insert_ne by (vm_compute; discriminate)).
    apply lookup_insert_eq.
  - do 3 (rewrite lookup_insert_ne by (vm_compute; discriminate)).
    apply lookup_insert_eq.
  - do 4 (rewrite lookup_insert_ne by (vm_compute; discriminate)).
    apply lookup_insert_eq.
Qed.

(** X5: a success result of [process_spec] carries exactly the five
    entries [original_length], [sanitized_length], [format], [created_at]
    and [processed_at]; its [format] is the instance's and is one of the
    valid formats, its lengths are those of the instance's content and of
    the string [sanitize] returns for it; the logger received one INFO
    record and the only object touched is the processed one, whose content
    is as before. *)
Theorem process_spec_success_result
    (v : pyobj) (w w' : World) (r : SpecInputProcessingResult) :
  process_spec v w = (inr r, w') -> success r = true ->
  exists (l : loc) (self : SpecInput),
    as_SpecInput v w = Some (l, self)
    /\ message r = py "Specification processed successfully"
    /\ dom (data r)
       = ({[ py "original_length"; py "sanitized_length"; py "format";
             py "created_at"; py "processed_at" ]} : gset pystr)
    /\ data r !! py "original_length" = Some (DInt (length (content self)))
    /\ data r !! py "sanitized_length" = Some (DInt (length (sanitize self).1))
    /\ data r !! py "format" = Some (DStr (format self))
    /\ format self ∈ VALID_FORMATS
    /\ data r !! py "created_at" = Some (DIso (created_at self))
    /\ (exists msg, logged w' = logged w ++ [(INFO, msg)])
    /\ (forall l', l' <> l -> heap w' !! l' = heap w !! l')
    /\ (exists self', heap w' !! l = Some self' /\ content self' = content self).
Proof.
  intros Hp Hs. destruct (as_SpecInput v w) as [[l self]|] eqn:Hi.
  2:{ rewrite (process_spec_not_instance _ _ Hi) in Hp.
      injection Hp as <- <-. discriminate. }
  destruct (is_valid self) eqn:Hv.
  2:{ rewrite (process_spec_invalid _ _ _ _ Hi Hv) in Hp. discriminate. }
  rewrite (process_spec_valid _ _ _ _ Hi Hv) in Hp. injection Hp as <- <-.
  exists l, self. cbn [message data logged heap].
  destruct (processed_data_lengths (sanitize self).2 (sanitize self).1 (clock w O))
    as [Ho Hl].
  destruct (processed_data_entries (sanitize self).2 (sanitize self).1 (clock w O))
    as (Hf & Hc & _).
  rewrite sanitize_keeps_content in Ho. rewrite sanitize_keeps_format in Hf.
  rewrite sanitize_keeps_created_at in Hc.
  split; [done|]. split; [done|].
  split; [apply processed_data_dom|].
  split; [exact Ho|]. split; [exact Hl|]. split; [exact Hf|].
  split; [by apply is_valid_spec in Hv as [_ ?]|].
  split; [exact Hc|].
  split; [by eexists|].
  split.
  - intros l' Hne. by rewrite lookup_insert_ne.
  - exists (sanitize self).2. split; [apply lookup_insert_eq|].
    apply sanitize_keeps_content.
Qed.

Lemma process_spec_success_result_witness :
  let self := mk_SpecInput (py "<input/>body text") (py "html") [] 3%Z None in
  let w := mk_World {[ 2%nat := self ]} [] [] (fun _ => 0%Z) in
  let out := process_spec (VRef 2) w in
  exists (r : SpecInputProcessingResult),
    out.1 = inr r /\ success r = true
    /\ data r !! py "original_length" = Some (DInt 17)
    /\ data r !! py "sanitized_length" = Some (DInt 9).
Proof.
  intros self w out.
  set (r := mk_result true (py "Specification processed successfully")
              (processed_data (sanitize self).2 (sanitize self).1 0%Z) 0%Z).
  assert (process_spec (VRef 2) w = (inr r, out.2)) as Hp
    by (vm_compute; reflexivity).
  destruct (process_spec_success_result (VRef 2) w out.2 r Hp eq_refl)
    as (l & self' & Hi & _ & _ & Ho & Hl & _).
  exists r. split; [vm_compute; reflexivity|]. split; [reflexivity|].
  assert (self' = self) as ->.
  { vm_compute in Hi. by injection Hi as _ <-. }
  split; [exact Ho|exact Hl].
Defined.

(** What a [process_spec] call does to objects and history, whatever the
    logger does. *)
Lemma process_spec_with_world logger v w :
  match admitted v w with
  | Some l =>
      exists self, heap w !! l = Some self /\ is_valid self = true
        /\ heap (process_spec_with logger v w).2
            = <[l := (sanitize self).2]> (heap w)
        /\ _processed_specs (process_spec_with logger v w).2
            = _processed_specs w ++ [l]
  | None =>
      heap (process_spec_with logger v w).2 = heap w
      /\ _processed_specs (process_spec_with logger v w).2 = _processed_specs w
  end.
Proof.
  unfold admitted, process_spec_with.
  destruct (as_SpecInput v w) as [[l self]|] eqn:Hi; [|done].
  destruct (is_valid self) eqn:Hv; [|done].
  apply as_SpecInput_ref in Hi as [_ Hl]. exists self.
  unfold try_except, bind, sanitize_at, now, append_processed, logger_call,
    new_result, ret.
  cbv beta iota zeta. cbn [negb fst snd heap _processed_specs logged clock].
  destruct (logger INFO _); [destruct (logger ERROR _)|]; done.
Qed.

Lemma process_spec_with_success logger v w r w' :
  process_spec_with logger v w = (inr r, w') -> success r = true ->
  is_Some (admitted v w).
Proof.
  unfold admitted, process_spec_with.
  destruct (as_SpecInput v w) as [[l self]|] eqn:Hi.
  - destruct (is_valid self); [by eexists|]. discriminate.
  - unfold new_result, bind, now, ret. cbv beta iota zeta.
    intros [= <- _]. discriminate.
Qed.

Lemma admitted_after_process_spec logger v v' w :
  admitted v' (process_spec_with logger v w).2 = admitted v' w.
Proof.
  pose proof (process_spec_with_world logger v w) as H.
  unfold admitted, as_SpecInput.
  destruct v' as [| | |l']; try done.
  destruct (admitted v w) as [l|].
  - destruct H as (self & Hl & Hv & -> & _).
    destruct (decide (l = l')) as [<-|Hne].
    + rewrite lookup_insert_eq, Hl. simpl.
      by rewrite is_valid_after_sanitize.
    + by rewrite lookup_insert_ne.
  - destruct H as [-> _]. done.
Qed.

Lemma admitted_after_process_each logger vs v' w :
  admitted v' (process_each logger vs w).2 = admitted v' w.
Proof.
  revert w. induction vs as [|v vs IH]; intros w; [done|].
  cbn [process_each snd]. by rewrite IH, admitted_after_process_spec.
Qed.

(** X6: the history records, in call order, exactly the valid instances
    handed to [process_spec], whatever the logger does: after a caller has
    handed any list of arguments to [process_spec] of a service with any
    logger, the history is what it was followed by the references of the
    arguments that are valid [SpecInput] instances (an input handed over
    twice appears twice), [get_processed_count] has grown by their number,
    one outcome was produced per argument, and a success result was
    returned only for such an argument. *)
Theorem history_records_valid_inputs
    (logger : Logger) (vs : list pyobj) (w : World) :
  let outs := (process_each logger vs w).1 in
  let w' := (process_each logger vs w).2 in
  let added := omap (fun v => admitted v w) vs in
  length outs = length vs
  /\ _processed_specs w' = _processed_specs w ++ added
  /\ (get_processed_count w').1
     = inr (length (_processed_specs w) + length added)%nat
  /\ Forall2 (fun v out =>
                forall r : SpecInputProcessingResult,
                  out = inr r -> success r = true -> is_Some (admitted v w))
             vs outs.
Proof.
  cbn zeta.
  assert (length (process_each logger vs w).1 = length vs
          /\ _processed_specs (process_each logger vs w).2
             = _processed_specs w ++ omap (fun v => admitted v w) vs
          /\ Forall2 (fun v out =>
                forall r : SpecInputProcessingResult,
                  out = inr r -> success r = true -> is_Some (admitted v w))
               vs (process_each logger vs w).1) as (H1 & H2 & H3).
  { assert (forall w0 : World,
       (forall v', admitted v' w0 = admitted v' w) ->
       length (process_each logger vs w0).1 = length vs
       /\ _processed_specs (process_each logger vs w0).2
          = _processed_specs w0 ++ omap (fun v => admitted v w) vs
       /\ Forall2 (fun v out =>
             forall r : SpecInputProcessingResult,
               out = inr r -> success r = true -> is_Some (admitted v w))
            vs (process_each logger vs w0).1) as Hgen; [|by apply Hgen].
    induction vs as [|v vs IH]; intros w0 Hsame.
    - simpl. rewrite app_nil_r. split_and!; try done; constructor.
    - cbn [process_each fst snd length].
      destruct (IH (process_spec_with logger v w0).2) as (IH1 & IH2 & IH3).
      { intros v'. by rewrite admitted_after_process_spec. }
      split; [by rewrite IH1|]. split.
      + rewrite IH2. pose proof (process_spec_with_world logger v w0) as Hw.
        rewrite Hsame in Hw. cbn [omap list_omap].
        destruct (admitted v w) as [l|].
        * destruct Hw as (self & _ & _ & _ & ->). by rewrite <- app_assoc.
        * by destruct Hw as [_ ->].
      + constructor; [|done]. intros r Hr Hs. rewrite <- Hsame.
        destruct (process_spec_with logger v w0) as [out w1] eqn:Hp.
        cbn [fst] in Hr. subst out.
        by apply (process_spec_with_success _ _ _ _ _ Hp). }
  split_and!; try done.
  unfold get_processed_count. simpl. by rewrite H2, length_app.
Qed.

(** X7: processing an input a second time succeeds again, reports the same
    two lengths, changes no object, and adds the input to the history a
    second time. *)
Theorem process_spec_twice
    (v : pyobj) (w w1 : World) (r1 : SpecInputProcessingResult) :
  process_spec v w = (inr r1, w1) -> success r1 = true ->
  exists (r2 : SpecInputProcessingResult) (w2 : World) (l : loc),
    process_spec v w1 = (inr r2, w2)
    /\ success r2 = true
    /\ data r2 !! py "original_length" = data r1 !! py "original_length"
    /\ data r2 !! py "sanitized_length" = data r1 !! py "sanitized_length"
    /\ heap w2 = heap w1
    /\ _processed_specs w2 = _processed_specs w ++ [l; l].
Proof.
  intros Hp Hs. destruct (as_SpecInput v w) as [[l self]|] eqn:Hi.
  2:{ rewrite (process_spec_not_instance _ _ Hi) in Hp.
      injection Hp as <- <-. discriminate. }
  destruct (is_valid self) eqn:Hv.
  2:{ rewrite (process_spec_invalid _ _ _ _ Hi Hv) in Hp. discriminate. }
  rewrite (process_spec_valid _ _ _ _ Hi Hv) in Hp. injection Hp as <- <-.
  apply as_SpecInput_ref in Hi as [-> Hl].
  set (w1 := mk_World _ _ _ _).
  assert (as_SpecInput (VRef l) w1 = Some (l, (sanitize self).2)) as Hi1.
  { unfold as_SpecInput. subst w1. cbn [heap]. by rewrite lookup_insert_eq. }
  assert (is_valid (sanitize self).2 = true) as Hv1
    by by rewrite is_valid_after_sanitize.
  eexists _, _, l. split; [apply (process_spec_valid _ _ _ _ Hi1 Hv1)|].
  rewrite sanitize_again. cbn [success data heap _processed_specs fst snd].
  split; [reflexivity|].
  split; [by rewrite !(proj1 (processed_data_lengths _ _ _))|].
  split; [by rewrite !(proj2 (processed_data_lengths _ _ _))|].
  split.
  - subst w1. cbn [heap]. apply insert_insert_eq.
  - subst w1. cbn [_processed_specs]. by rewrite <- app_assoc.
Qed.

Lemma process_spec_twice_witness :
  let self := mk_SpecInput (py "<b>twice</b>") (py "html") [] 3%Z None in
  let w := mk_World {[ O := self ]} [] [] (fun _ => 0%Z) in
  let r1 := mk_result true (py "Specification processed successfully")
              (processed_data (sanitize self).2 (sanitize self).1 0%Z) 0%Z in
  exists (r2 : SpecInputProcessingResult) (w2 : World) (l : loc),
    process_spec (VRef O) (process_spec (VRef O) w).2 = (inr r2, w2)
    /\ success r2 = true
    /\ data r2 !! py "original_length" = data r1 !! py "original_length"
    /\ data r2 !! py "sanitized_length" = data r1 !! py "sanitized_length"
    /\ heap w2 = heap (process_spec (VRef O) w).2
    /\ _processed_specs w2 = _processed_specs w ++ [l; l].
Proof.
  intros self w r1.
  apply (process_spec_twice (VRef O) w (process_spec (VRef O) w).2 r1).
  - vm_compute. reflexivity.
  - reflexivity.
Defined.

Lemma handle_invalid_spec_frame order v w :
  heap (handle_invalid_spec order v w).2 = heap w
  /\ _processed_specs (handle_invalid_spec order v w).2 = _processed_specs w
  /\ logged (handle_invalid_spec order v w).2 = logged w.
Proof.
  unfold handle_invalid_spec.
  destruct v as [| | |l]; try done.
  by destruct (heap w !! l).
Qed.

Lemma process_spec_world v w :
  (process_spec v w).2 = w
  \/ (heap (process_spec v w).2 = heap w
      /\ _processed_specs (process_spec v w).2 = _processed_specs w)
  \/ exists l self,
       heap w !! l = Some self
       /\ heap (process_spec v w).2 = <[l := (sanitize self).2]> (heap w)
       /\ _processed_specs (process_spec v w).2 = _processed_specs w ++ [l].
Proof.
  destruct (as_SpecInput v w) as [[l self]|] eqn:Hi.
  - destruct (is_valid self) eqn:Hv.
    + right. right. exists l, self.
      rewrite (process_spec_valid _ _ _ _ Hi Hv).
      by apply as_SpecInput_ref in Hi as [_ ?].
    + left. by rewrite (process_spec_invalid _ _ _ _ Hi Hv).
  - right. left. by rewrite (process_spec_not_instance _ _ Hi).
Qed.

(** X8: every input in the history is an object whose sanitized content
    has been computed.  This holds for a new service and is kept by
    [process_spec] (whatever it is given and however it ends), by
    [handle_invalid_spec], by [clear_processed_specs] and by assignments
    to the content of any object; so a [sanitize] call on an input found in
    the history returns its cached string and changes nothing. *)
Theorem history_stays_sanitized :
  (forall w : World, history_sanitized (SpecInputService_init w))
  /\ (forall (v : pyobj) (w : World),
        history_sanitized w -> history_sanitized (process_spec v w).2)
  /\ (forall (order : list pystr) (v : pyobj) (w : World),
        history_sanitized w ->
        history_sanitized (handle_invalid_spec order v w).2)
  /\ (forall w : World, history_sanitized (clear_processed_specs w).2)
  /\ (forall (l : loc) (c : pystr) (w : World),
        history_sanitized w -> history_sanitized (assign_content l c w))
  /\ (forall (w : World) (l : loc),
        history_sanitized w -> l ∈ _processed_specs w ->
        exists (self : SpecInput) (cached : pystr),
          heap w !! l = Some self /\ sanitize self = (cached, self)).
Proof.
  unfold history_sanitized. split_and!.
  - intros w. simpl. constructor.
  - intros v w H.
    destruct (process_spec_world v w) as [->|[[-> ->]|(l & self & Hl & -> & ->)]];
      try done.
    apply Forall_app. split.
    + eapply Forall_impl; [exact H|]. intros l' (o & Ho & Hc). simpl in *.
      destruct (decide (l = l')) as [<-|Hne].
      * exists (sanitize self).2. rewrite lookup_insert_eq. split; [done|].
        rewrite sanitize_fills_cache. by eexists.
      * exists o. by rewrite lookup_insert_ne.
    + constructor; [|constructor].
      exists (sanitize self).2. rewrite lookup_insert_eq. split; [done|].
      rewrite sanitize_fills_cache. by eexists.
  - intros order v w H.
    destruct (handle_invalid_spec_frame order v w) as (-> & -> & _). done.
  - intros w. simpl. constructor.
  - intros l c w H. simpl.
    eapply Forall_impl; [exact H|]. intros l' (o & Ho & Hc). simpl in *.
    destruct (decide (l = l')) as [<-|Hne].
    + exists (set_content o c). rewrite lookup_alter_eq, Ho. done.
    + exists o. by rewrite lookup_alter_ne.
  - intros w l H Hin.
    rewrite Forall_forall in H. destruct (H l Hin) as (o & Ho & [cached Hc]).
    exists o, cached. split; [done|]. by apply sanitize_cached.
Qed.

Lemma history_stays_sanitized_witness :
  let self := mk_SpecInput (py "some <form>x</form>text") (py "text") [] 0%Z None in
  let w := (process_spec (VRef O)
              (SpecInputService_init
                 (mk_World {[ O := self ]} [] [] (fun _ => 0%Z)))).2 in
  history_sanitized (assign_content O (py "changed") w)
  /\ exists (o : SpecInput) (cached : pystr),
       heap (assign_content O (py "changed") w) !! O = Some o
       /\ sanitize o = (cached, o).
Proof.
  intros self w.
  destruct history_stays_sanitized as (Hinit & Hproc & _ & _ & Hassign & Huse).
  assert (history_sanitized (assign_content O (py "changed") w)) as H.
  { apply Hassign, Hproc.
    apply (Hinit (mk_World {[ O := self ]} [] [] (fun _ => 0%Z))). }
  split; [exact H|]. apply (Huse _ O H).
  apply (bool_decide_unpack _). vm_compute. exact I.
Defined.

Lemma handle_invalid_spec_instance order w l self :
  heap w !! l = Some self ->
  handle_invalid_spec order (VRef l) w =
    (inr (mk_result false (py "Invalid specification: " ++ SpecInput_str self)
            {[ py "errors" := DList (_get_validation_errors order self) ]}
            (clock w O)),
     mk_World (heap w) (_processed_specs w) (logged w) (advance 1 w)).
Proof.
  intros H. unfold handle_invalid_spec. rewrite H. reflexivity.
Qed.

(** X9: [handle_invalid_spec] only reports: for [None] and for a
    [SpecInput] it returns a failure result and changes neither the
    objects (it does not sanitize), nor the history, nor what the logger
    received.  Given a string or an integer it raises [AttributeError]
    (such a value has no [content]) and leaves the state as it was; for the
    same string [process_spec] returns a failure result instead. *)
Theorem handle_invalid_spec_no_effect :
  (forall (order : list pystr) (w : World),
     exists (r : SpecInputProcessingResult) (w' : World),
       handle_invalid_spec order VNone w = (inr r, w')
       /\ success r = false
       /\ heap w' = heap w /\ _processed_specs w' = _processed_specs w
       /\ logged w' = logged w)
  /\ (forall (order : list pystr) (w : World) (l : loc) (self : SpecInput),
        heap w !! l = Some self ->
        exists (r : SpecInputProcessingResult) (w' : World),
          handle_invalid_spec order (VRef l) w = (inr r, w')
          /\ success r = false
          /\ message r = py "Invalid specification: " ++ SpecInput_str self
          /\ heap w' = heap w /\ _processed_specs w' = _processed_specs w
          /\ logged w' = logged w)
  /\ (forall (order : list pystr) (s : pystr) (w : World),
        handle_invalid_spec order (VStr s) w
        = (inl (AttributeError (py "'str' object has no attribute 'content'")), w)
        /\ exists (r : SpecInputProcessingResult) (w' : World),
             process_spec (VStr s) w = (inr r, w') /\ success r = false)
  /\ (forall (order : list pystr) (z : Z) (w : World),
        handle_invalid_spec order (VInt z) w
        = (inl (AttributeError (py "'int' object has no attribute 'content'")), w)).
Proof.
  split_and!.
  - intros order w. eexists _, _. split; [reflexivity|]. done.
  - intros order w l self Hl. eexists _, _.
    split; [by apply handle_invalid_spec_instance|]. done.
  - intros order s w. split; [reflexivity|].
    eexists _, _. split; [by apply process_spec_not_instance|]. done.
  - done.
Qed.

Lemma handle_invalid_spec_no_effect_witness :
  let self := mk_SpecInput (py "<b>x</b>") (py "pdf") [] 0%Z None in
  let w := mk_World {[ 1%nat := self ]} [1%nat] [] (fun _ => 0%Z) in
  heap w !! 1%nat = Some self
  /\ exists (r : SpecInputProcessingResult) (w' : World),
       handle_invalid_spec VALID_FORMATS (VRef 1) w = (inr r, w')
       /\ success r = false
       /\ message r = py "Invalid specification: " ++ SpecInput_str self
       /\ heap w' = heap w /\ _processed_specs w' = _processed_specs w
       /\ logged w' = logged w.
Proof.
  intros self w.
  assert (heap w !! 1%nat = Some self) as H by (vm_compute; reflexivity).
  split; [exact H|].
  exact (proj1 (proj2 handle_invalid_spec_no_effect) VALID_FORMATS w 1%nat self H).
Defined.

(** ** The application *)

Lemma new_object_is_new w : heap w !! fresh (dom (heap w)) = None.
Proof. apply not_elem_of_dom, is_fresh. Qed.

Lemma process_specification_invalid lower order text fmt w :
  is_valid (SpecInput_init lower text fmt None (clock w O)) = false ->
  process_specification lower order text fmt w =
    (inr (<[py "status" := AStr (py "error")]>
          (<[py "message" := AStr (py "Invalid specification input")]>
          (<[py "errors" :=
               AList (app_get_validation_errors order
                        (SpecInput_init lower text fmt None (clock w O)))]>
           ∅))),
     mk_World (<[fresh (dom (heap w))
                 := SpecInput_init lower text fmt None (clock w O)]> (heap w))
              (_processed_specs w) (logged w) (advance 1 w)).
Proof.
  intros Hv.
  unfold process_specification, new_SpecInput, try_except, bind, now, ret.
  cbv beta iota zeta. cbn [fst snd heap _processed_specs logged clock].
  rewrite Hv. reflexivity.
Qed.

Lemma process_specification_valid lower order text fmt w :
  let self := SpecInput_init lower text fmt None (clock w O) in
  let l := fresh (dom (heap w)) in
  is_valid self = true ->
  process_specification lower order text fmt w =
    (inr (<[py "status" := AStr (py "success")]>
          (<[py "message" := AStr (py "Specification processed successfully")]>
          (<[py "data" :=
               ADict (processed_data (sanitize self).2 (sanitize self).1
                        (clock w 1%nat))]>
          (<[py "spec_info" :=
               ADict (<[py "format" := DStr (format self)]>
                      (<[py "length" := DInt (length (content self))]>
                      (<[py "created_at" := DIso (created_at self)]> ∅)))]>
           ∅)))),
     mk_World (<[l := (sanitize self).2]> (<[l := self]> (heap w)))
              (_processed_specs w ++ [l])
              (logged w ++ [(INFO, py "Successfully processed spec: "
                                    ++ SpecInput_str (sanitize self).2)])
              (advance 3 w)).
Proof.
  intros self l Hv.
  unfold process_specification, new_SpecInput, try_except, bind, now, ret.
  cbv beta iota zeta. cbn [fst snd heap _processed_specs logged clock].
  fold self. fold l. rewrite Hv. cbn [negb].
  set (w1 := mk_World (<[l := self]> (heap w)) _ _ _).
  assert (as_SpecInput (VRef l) w1 = Some (l, self)) as Hi.
  { unfold as_SpecInput. subst w1. cbn [heap]. by rewrite lookup_insert_eq. }
  rewrite (process_spec_valid _ _ _ _ Hi Hv). reflexivity.
Qed.

Lemma app_errors_are_service_errors order self :
  app_get_validation_errors order self = _get_validation_errors order self.
Proof. reflexivity. Qed.

Lemma validation_errors_nonempty order self :
  is_valid self = false -> _get_validation_errors order self <> [].
Proof.
  intros Hv E. rewrite get_validation_errors_cases in E.
  assert (is_valid self = true); [|congruence].
  apply is_valid_spec.
  destruct (decide _) in E; [done|]. destruct (decide _) in E; [|done].
  split; [lia|done].
Qed.

(** X10: [process_specification] never raises, whatever content and format
    it is given: it makes a new object and returns a dictionary.  For an
    instance that is valid the status is [success], the message is that of
    [process_spec] and the new object is appended to the history.  For one
    that is not, the status is [error], the message is
    [Invalid specification input], the [errors] are a non-empty list, the
    same that the service's [handle_invalid_spec] reports for that
    instance, and neither history nor logger is touched.  The objects that
    were there before are unchanged in both cases. *)
Theorem process_specification_answers
    (lower : pystr -> pystr) (order : list pystr)
    (text : pystr) (fmt : option pystr) (w : World) :
  let self := SpecInput_init lower text fmt None (clock w O) in
  let l := fresh (dom (heap w)) in
  exists (d : gmap pystr app_value) (w' : World),
    process_specification lower order text fmt w = (inr d, w')
    /\ heap w !! l = None
    /\ (forall l' : loc, l' <> l -> heap w' !! l' = heap w !! l')
    /\ (is_valid self = true ->
        d !! py "status" = Some (AStr (py "success"))
        /\ d !! py "message"
           = Some (AStr (py "Specification processed successfully"))
        /\ _processed_specs w' = _processed_specs w ++ [l]
        /\ heap w' !! l = Some (sanitize self).2)
    /\ (is_valid self = false ->
        d !! py "status" = Some (AStr (py "error"))
        /\ d !! py "message" = Some (AStr (py "Invalid specification input"))
        /\ (exists errors : list pystr,
              d !! py "errors" = Some (AList errors) /\ errors <> []
              /\ forall (r : SpecInputProcessingResult) (w2 : World),
                   handle_invalid_spec order (VRef l) w' = (inr r, w2) ->
                   data r !! py "errors" = Some (DList errors))
        /\ _processed_specs w' = _processed_specs w
        /\ logged w' = logged w).
Proof.
  intros self l. destruct (is_valid self) eqn:Hv.
  - eexists _, _. split; [by apply process_specification_valid|].
    split; [apply new_object_is_new|]. split.
    { intros l' Hne. cbn [heap]. by rewrite !lookup_insert_ne. }
    split; [|done]. intros _. cbn [heap _processed_specs].
    split; [apply lookup_insert_eq|].
    split.
    { rewrite lookup_insert_ne by (vm_compute; discriminate).
      apply lookup_insert_eq. }
    split; [done|]. apply lookup_insert_eq.
  - eexists _, _. split; [by apply process_specification_invalid|].
    split; [apply new_object_is_new|]. split.
    { intros l' Hne. cbn [heap]. by rewrite lookup_insert_ne. }
    split; [done|]. intros _. cbn [heap _processed_specs logged].
    split; [apply lookup_insert_eq|].
    split.
    { rewrite lookup_insert_ne by (vm_compute; discriminate).
      apply lookup_insert_eq. }
    split; [|done].
    exists (_get_validation_errors order self). split_and!.
    + do 2 (rewrite lookup_insert_ne by (vm_compute; discriminate)).
      rewrite lookup_insert_eq. by rewrite app_errors_are_service_errors.
    + by apply validation_errors_nonempty.
    + intros r w2 Hh.
      rewrite (handle_invalid_spec_instance _ _ _ self) in Hh
        by (cbn [heap]; apply lookup_insert_eq).
      injection Hh as <- _. cbn [data]. apply lookup_singleton_eq.
Qed.

Lemma submit_each_history lower order inputs w :
  length (_processed_specs (submit_each lower order inputs w))
  = (length (_processed_specs w)
     + length (List.filter (valid_input lower) inputs))%nat.
Proof.
  revert w. induction inputs as [|[text fmt] inputs IH]; intros w.
  - simpl. lia.
  - cbn [submit_each List.filter]. rewrite IH.
    change (valid_input lower (text, fmt))
      with (is_valid (SpecInput_init lower text fmt None (clock w O))).
    destruct (is_valid (SpecInput_init lower text fmt None (clock w O))) eqn:Hv.
    + rewrite (process_specification_valid _ order _ _ _ Hv).
      cbn [snd _processed_specs length]. rewrite length_app. simpl. lia.
    + rewrite (process_specification_invalid _ order _ _ _ Hv).
      cbn [snd _processed_specs]. lia.
Qed.

(** X11: the application counts exactly the valid submissions: after any
    list of submissions to [process_specification],
    [get_application_status] reports under [processed_specs] the count
    before plus the number of submissions that make a valid instance; in
    particular, right after [SpecInputApp] is made, that number itself.  It
    also reports status [running], the valid formats, and the minimum
    length 2. *)
Theorem application_counts_valid_submissions
    (lower : pystr -> pystr) (order order' : list pystr)
    (inputs : list (pystr * option pystr)) :
  (forall w : World,
     exists d : gmap pystr app_value,
       (get_application_status order' (submit_each lower order inputs w)).1
       = inr d
       /\ d !! py "processed_specs"
          = Some (AInt (length (_processed_specs w)
                        + length (List.filter (valid_input lower) inputs)))
       /\ d !! py "status" = Some (AStr (py "running"))
       /\ d !! py "supported_formats" = Some (AList order')
       /\ d !! py "min_content_length" = Some (AInt 2))
  /\ (forall w : World,
        exists d : gmap pystr app_value,
          (get_application_status order'
             (submit_each lower order inputs (SpecInputApp_init w).2)).1
          = inr d
          /\ d !! py "processed_specs"
             = Some (AInt (length (List.filter (valid_input lower) inputs)))).
Proof.
  assert (forall w : World,
     exists d : gmap pystr app_value,
       (get_application_status order' (submit_each lower order inputs w)).1
       = inr d
       /\ d !! py "processed_specs"
          = Some (AInt (length (_processed_specs w)
                        + length (List.filter (valid_input lower) inputs)))
       /\ d !! py "status" = Some (AStr (py "running"))
       /\ d !! py "supported_formats" = Some (AList order')
       /\ d !! py "min_content_length" = Some (AInt 2)) as H.
  { intros w. eexists. split; [reflexivity|]. split_and!.
    - rewrite lookup_insert_ne by (vm_compute; discriminate).
      rewrite lookup_insert_eq. by rewrite submit_each_history.
    - apply lookup_insert_eq.
    - do 2 (rewrite lookup_insert_ne by (vm_compute; discriminate)).
      apply lookup_insert_eq.
    - do 3 (rewrite lookup_insert_ne by (vm_compute; discriminate)).
      apply lookup_insert_eq. }
  split; [exact H|].
  intros w. destruct (H (SpecInputApp_init w).2) as (d & Hd & Hc & _).
  exists d. split; [exact Hd|]. exact Hc.
Qed.

Lemma process_specification_answers_witness :
  let w := mk_World ∅ [] [] (fun _ => 0%Z) in
  exists (d : gmap pystr app_value) (w' : World),
    process_specification (map ascii_lower) VALID_FORMATS (py "x")
      (Some (py "PDF")) w = (inr d, w')
    /\ d !! py "status" = Some (AStr (py "error"))
    /\ _processed_specs w' = _processed_specs w.
Proof.
  intros w.
  destruct (process_specification_answers (map ascii_lower) VALID_FORMATS
              (py "x") (Some (py "PDF")) w)
    as (d & w' & Hp & _ & _ & _ & Hinv).
  exists d, w'. split; [exact Hp|].
  destruct (Hinv eq_refl) as (Hs & _ & _ & Hh & _). by split.
Defined.

Lemma application_counts_valid_submissions_witness :
  let inputs := [(py "First specification", Some (py "text"));
                 (py "x", Some (py "text"));
                 (py "# Title", Some (py "MARKDOWN"));
                 (py "Some content", Some (py "pdf"))] in
  let w := mk_World ∅ [5%nat] [] (fun _ => 0%Z) in
  exists d : gmap pystr app_value,
    (get_application_status VALID_FORMATS
       (submit_each (map ascii_lower) VALID_FORMATS inputs
          (SpecInputApp_init w).2)).1 = inr d
    /\ d !! py "processed_specs" = Some (AInt 2).
Proof.
  intros inputs w.
  exact (proj2 (application_counts_valid_submissions (map ascii_lower)
                  VALID_FORMATS VALID_FORMATS inputs) w).
Defined.

(** X12: for an instance that is valid, has not been sanitized yet and
    whose content has no [<], [process_spec] succeeds and reports as
    [sanitized_length] the length of the trimmed content; when the content
    has no white space around it, [sanitized_length] equals
    [original_length]. *)
Theorem process_spec_plain_text
    (v : pyobj) (w : World) (l : loc) (self : SpecInput) :
  as_SpecInput v w = Some (l, self) ->
  is_valid self = true ->
  _sanitized_content self = None ->
  60 ∉ content self ->
  exists (r : SpecInputProcessingResult) (w' : World),
    process_spec v w = (inr r, w')
    /\ success r = true
    /\ data r !! py "sanitized_length"
       = Some (DInt (length (strip (content self))))
    /\ (strip (content self) = content self ->
        data r !! py "sanitized_length" = data r !! py "original_length").
Proof.
  intros Hi Hv Hc Hlt. eexists _, _.
  split; [apply (process_spec_valid _ _ _ _ Hi Hv)|].
  split; [reflexivity|]. cbn [data].
  destruct (processed_data_lengths (sanitize self).2 (sanitize self).1 (clock w O))
    as [Ho Hl].
  rewrite sanitize_keeps_content in Ho.
  assert ((sanitize self).1 = strip (content self)) as E.
  { rewrite (sanitize_fresh _ Hc). cbn [fst]. by apply sanitize_content_no_lt. }
  split; [by rewrite Hl, E|]. intros Hs. by rewrite Ho, Hl, E, Hs.
Qed.

Lemma process_spec_plain_text_witness :
  let self := SpecInput_init (map ascii_lower)
                (py "This is a basic specification for testing the system functionality.")
                (Some (py "text")) None 0%Z in
  let w := mk_World {[ O := self ]} [] [] (fun _ => 0%Z) in
  exists (r : SpecInputProcessingResult) (w' : World),
    process_spec (VRef O) w = (inr r, w')
    /\ success r = true
    /\ data r !! py "sanitized_length"
       = Some (DInt (length (strip (content self))))
    /\ (strip (content self) = content self ->
        data r !! py "sanitized_length" = data r !! py "original_length").
Proof.
  intros self w.
  apply (process_spec_plain_text (VRef O) w O self).
  - vm_compute. reflexivity.
  - vm_compute. reflexivity.
  - reflexivity.
  - apply (bool_decide_unpack _). vm_compute. exact I.
Defined.

(** X13: clearing and processing compose as the callers that reuse one
    service expect: [clear_processed_specs] empties the history whatever it
    held and leaves every object as it is, and a valid input processed
    right after it is then the only entry, so [get_processed_count]
    returns 1. *)
Theorem clear_then_process
    (v : pyobj) (w : World) (l : loc) (self : SpecInput) :
  as_SpecInput v w = Some (l, self) ->
  is_valid self = true ->
  let w1 := (clear_processed_specs w).2 in
  let w2 := (process_spec v w1).2 in
  heap w1 = heap w
  /\ (get_processed_specs w1).1 = inr []
  /\ (get_processed_specs w2).1 = inr [l]
  /\ (get_processed_count w2).1 = inr 1%nat.
Proof.
  intros Hi Hv w1 w2.
  assert (as_SpecInput v w1 = Some (l, self)) as Hi1.
  { destruct v; try done. }
  subst w2. rewrite (process_spec_valid _ _ _ _ Hi1 Hv). done.
Qed.

Lemma clear_then_process_witness :
  let self := mk_SpecInput (py "again") (py "text") [] 0%Z (Some (py "again")) in
  let w := mk_World {[ 4%nat := self ]} [4%nat; 4%nat; 9%nat] [] (fun _ => 0%Z) in
  let w1 := (clear_processed_specs w).2 in
  let w2 := (process_spec (VRef 4) w1).2 in
  heap w1 = heap w
  /\ (get_processed_specs w1).1 = inr []
  /\ (get_processed_specs w2).1 = inr [4%nat]
  /\ (get_processed_count w2).1 = inr 1%nat.
Proof.
  intros self w.
  apply (clear_then_process (VRef 4) w 4%nat self); vm_compute; reflexivity.
Defined.

Lemma lstrip_subset x s : x ∈ lstrip s -> x ∈ s.
Proof.
  induction s as [|c s IH]; [done|]. simpl.
  destruct (isspace c); [|done]. intros H. apply elem_of_cons. right. by apply IH.
Qed.

Lemma elem_of_rev_iff (x : N) (s : pystr) : x ∈ rev s <-> x ∈ s.
Proof. rewrite !list_elem_of_In. symmetry. apply in_rev. Qed.

Lemma strip_subset x s : x ∈ strip s -> x ∈ s.
Proof.
  unfold strip, rstrip. intros H.
  apply (proj1 (elem_of_rev_iff _ _)) in H. apply lstrip_subset in H.
  apply (proj1 (elem_of_rev_iff _ _)) in H. by apply lstrip_subset.
Qed.

(** X14: on content without [<], sanitizing is idempotent: what [sanitize]
    computes for such content is again free of [<], and sanitizing it once
    more gives the same string. *)
Theorem sanitize_idempotent_without_tags (text : pystr) :
  60 ∉ text ->
  (60 ∉ sanitize_content text)
  /\ sanitize_content (sanitize_content text) = sanitize_content text.
Proof.
  intros H. rewrite (sanitize_content_no_lt _ H).
  assert (60 ∉ strip text) as Hs.
  { intros Hin. by apply H, strip_subset. }
  split; [exact Hs|].
  rewrite (sanitize_content_no_lt _ Hs). apply strip_idem.
Qed.

Lemma sanitize_idempotent_without_tags_witness :
  (60 ∉ py "  a > b  ")
  /\ (60 ∉ sanitize_content (py "  a > b  "))
  /\ sanitize_content (sanitize_content (py "  a > b  "))
     = sanitize_content (py "  a > b  ").
Proof.
  assert (60 ∉ py "  a > b  ") as H
    by (apply (bool_decide_unpack _); vm_compute; exact I).
  split; [exact H|].
  exact (sanitize_idempotent_without_tags (py "  a > b  ") H).
Defined.

(** * The claims the code does not bear out as written *)







(** C4 fails on the code where the logger raises: [process_spec] appends the
    input to the history before it calls [logger.info], both inside the
    [try]; with a logger that raises on that record the handler returns a
    failure result, and the input is in the history all the same. *)
Lemma process_spec_failure_after_append :
  let self := SpecInput_init (map ascii_lower) (py "A valid specification")
                default_format None 0%Z in
  let w := mk_World {[ O := self ]} [] [] (fun _ => 0%Z) in
  is_valid self = true
  /\ _processed_specs w = []
  /\ match process_spec_with raising_on_info (VRef O) w with
     | (inr r, w') =>
         success r = false
         /\ message r = py "Error processing specification: log filter failed"
         /\ _processed_specs w' = [O]
     | (inl _, _) => False
     end.
Proof. vm_compute. repeat split. Qed.
